(** * The statistics-and-ranking pass of the blackjack game service

    A shallow embedding of [src/index.ts]: the aggregation of player
    statistics onto entries ([updateEntryStatistics]), the per-pool ranking
    ([updateEntryRankings]) and the orchestration ([runGame]), followed by
    the properties of these functions.

    The earlier entry point of the repository, which only stores a
    snapshot of the game state, carries none of this logic; it is embedded
    separately in [Snapshot].

    Modelling conventions.
    - Integer-valued JavaScript numbers (goal counts, ranks) are [Z].  The
      sums and the difference the aggregation computes on them are binary64
      operations: their rounding is written out in [Number], and is the
      identity up to 2^53.  Identities are only ever compared for equality;
      they are [Z] too.
    - [expected_goals] is a binary64 number ([PrimFloat.float]); the sum is
      the IEEE sum and [parseFloat(x.toFixed(2))] is computed exactly.
    - The persistent store is a finite map from entry identities to entry
      records, as [prisma.entry.findMany] returns them with the relations
      the source includes.  Pools, rules, footballers and profiles are never
      written by this program.
    - Effects (store writes, thrown errors, console lines) are threaded
      through an exception/state monad [Exec].  A write may fail for reasons
      outside the program; this is an arbitrary oracle [fails] consulted at
      every call. *)

From Stdlib Require Import ZArith PrimFloat SpecFloat FloatOps.
From stdpp Require Import gmap list sorting.

Open Scope Z_scope.
Set Warnings "-inexact-float".

(** ** Data model *)

(** [type Player] of the source: one element of the statistics feed. *)
Module Player.
Record t := mk {
  id : Z;
  goals_scored : Z;
  own_goals : Z;
  expected_goals : float;
}.
End Player.

Module Footballer.
Record t := mk { id : Z }.
End Footballer.

Module Rules.
Record t := mk { own_goals : bool }.
End Rules.

(** The pool nested in an entry by [include: { pool: { include: { rules } } }].
    A relation that is absent is [None] ([null] in the source). *)
Module Pool.
Record t := mk {
  id : Z;
  rules : option Rules.t;
}.
End Pool.

Inductive EntryStatus := ACTIVE | BUST | WINNER | SHORT.

Module Entry.
Record t := mk {
  id : Z;
  footballers : list Footballer.t;
  pool : option Pool.t;
  profile : Z;
  goals : Z;
  own_goals : Z;
  net_goals : Z;
  expected_goals : float;
  all_scored : bool;
  status : EntryStatus;
  rank : option Z;
}.
End Entry.

(** ** [Number.prototype.toFixed(2)] followed by [parseFloat] *)

(** The string produced by [x.toFixed(2)]: either a sign and the decimal
    digits of an integer [n] with the point before its last two digits, or,
    for a value that is not finite or is at least 10^21, the result of
    [Number::toString], which denotes [x] itself. *)
Inductive FixedString :=
  | FixedDecimal (negative : bool) (n : Z)
  | NumberToString (x : float).

(** The integer [n] for which [n / 100 - m * 2^e] is as close to zero as
    possible, the larger one if there are two. *)
Definition nearestHundredths (m : positive) (e : Z) : Z :=
  if 0 <=? e then 100 * Z.pos m * 2 ^ e
  else (200 * Z.pos m + 2 ^ (- e)) `div` 2 ^ (1 - e).

Definition toFixed2 (x : float) : FixedString :=
  match Prim2SF x with
  | S754_zero _ => FixedDecimal false 0
  | S754_finite s m e =>
      if (e <? 0) || (Z.pos m * 2 ^ e <? 10 ^ 21)
      then FixedDecimal s (nearestHundredths m e)
      else NumberToString x
  | _ => NumberToString x
  end.

(** [parseFloat] of such a string: the binary64 value nearest to the decimal
    (ties to even), keeping the sign of a zero. *)
Definition parseFloat (s : FixedString) : float :=
  match s with
  | FixedDecimal negative (Z.pos p) =>
      SF2Prim (SFdiv prec emax (S754_finite negative p 0)
                                (S754_finite false 100 0))
  | FixedDecimal negative _ => if negative then (-0)%float else 0%float
  | NumberToString x => x
  end.

(** ** The arithmetic of the counters

    [goals], [ownGoals] and [netGoals] are JavaScript numbers, that is
    binary64 values.  The feed and the store hold integers there, which the
    model carries as [Z]; [+] and [-] on two integers give the integer
    nearest to the exact result among those with a significand of 53 bits,
    the one with the even significand when two are equally near.  Up to
    2^53 in magnitude that is the exact result.  The range of the exponent
    is not modelled: the model covers the runs in which the counters stay
    below 2^1024, where the source has [Infinity], which is not an
    integer. *)
Module Number.
(** The binary64 number nearest to the integer [z]: [bits] is the number of
    low bits that do not fit the significand. *)
Definition nearest (z : Z) : Z :=
  let bits := Z.log2 (Z.abs z) - 52 in
  if bits <=? 0 then z
  else
    let ulp := 2 ^ bits in
    let q := Z.abs z `div` ulp in
    let r := Z.abs z `mod` ulp in
    let up := (ulp <? 2 * r) || ((ulp =? 2 * r) && Z.odd q) in
    Z.sgn z * ((if up then q + 1 else q) * ulp).

(** [x + y] and [x - y] of the source.  The operands are numbers too: an
    integer that is not a binary64 number stands for the nearest one, as
    when the source reads it. *)
Definition add (x y : Z) : Z := nearest (nearest x + nearest y).
Definition sub (x y : Z) : Z := nearest (nearest x - nearest y).

(** The integers on which these operations are exact. *)
Definition safe (z : Z) : Prop := Z.abs z ≤ 2 ^ 53.

(** The integer a binary64 value of the Standard Library denotes, when it
    denotes one; [nearest] is compared with the library's rounding below. *)
Definition integer (x : spec_float) : option Z :=
  match x with
  | S754_zero _ => Some 0
  | S754_finite s m e =>
      if 0 <=? e then Some (cond_Zopp s (Z.pos m * 2 ^ e))
      else if Z.pos m `mod` 2 ^ (- e) =? 0
           then Some (cond_Zopp s (Z.pos m `div` 2 ^ (- e)))
           else None
  | _ => None
  end.

Definition binary64 (z : Z) : spec_float := binary_normalize prec emax z 0 false.
End Number.

(** ** Aggregation: the computation of [updateEntryStatistics] *)

(** The four local variables of the loop body. *)
Record Totals := mkTotals {
  goals : Z;
  ownGoals : Z;
  expectedGoals : float;
  allScored : bool;
}.

Definition initialTotals : Totals :=
  {| goals := 0; ownGoals := 0; expectedGoals := 0%float; allScored := true |}.

(** [relevantPlayers.find((p) => p.id === footballer.id)] *)
Definition findPlayer (relevantPlayers : list Player.t)
    (footballer : Footballer.t) : option Player.t :=
  List.find (λ p, Player.id p =? Footballer.id footballer) relevantPlayers.

(** One iteration of [for (const footballer of entry.footballers)]. *)
Definition addFootballer (relevantPlayers : list Player.t)
    (acc : Totals) (footballer : Footballer.t) : Totals :=
  match findPlayer relevantPlayers footballer with
  | Some playerStats =>
      {| goals := Number.add (goals acc) (Player.goals_scored playerStats);
         ownGoals := Number.add (ownGoals acc) (Player.own_goals playerStats);
         expectedGoals :=
           (expectedGoals acc + Player.expected_goals playerStats)%float;
         allScored :=
           if Player.goals_scored playerStats =? 0 then false
           else allScored acc |}
  | None => acc
  end.

Definition sumFootballers (relevantPlayers : list Player.t)
    (footballers : list Footballer.t) : Totals :=
  fold_left (addFootballer relevantPlayers) footballers initialTotals.

(** The [data] of the statistics update. *)
Module Statistics.
Record t := mk {
  goals : Z;
  own_goals : Z;
  net_goals : Z;
  expected_goals : float;
  all_scored : bool;
  status : EntryStatus;
}.
End Statistics.

Definition classify (goals : Z) (allScored : bool) : EntryStatus :=
  if 21 <? goals then BUST
  else if allScored then ACTIVE
  else SHORT.

Definition computeStatistics (relevantPlayers : list Player.t)
    (footballers : list Footballer.t) : Statistics.t :=
  let t := sumFootballers relevantPlayers footballers in
  let netGoals := Number.sub (goals t) (ownGoals t) in
  let status := classify (goals t) (allScored t) in
  {| Statistics.goals := goals t;
     Statistics.own_goals := ownGoals t;
     Statistics.net_goals := netGoals;
     Statistics.expected_goals := parseFloat (toFixed2 (expectedGoals t));
     Statistics.all_scored := allScored t;
     Statistics.status := status |}.

(** ** The store and its effects *)

(** The two shapes of [data] passed to [prisma.entry.update]. *)
Inductive UpdateData :=
  | StatisticsData (s : Statistics.t)
  | RankData (rank : Z).

Record UpdateArgs := mkUpdate {
  where_id : Z;
  data : UpdateData;
}.

(** [update] writes the fields named in [data] and no other. *)
Definition applyData (d : UpdateData) (e : Entry.t) : Entry.t :=
  match d with
  | StatisticsData s =>
      {| Entry.id := Entry.id e;
         Entry.footballers := Entry.footballers e;
         Entry.pool := Entry.pool e;
         Entry.profile := Entry.profile e;
         Entry.goals := Statistics.goals s;
         Entry.own_goals := Statistics.own_goals s;
         Entry.net_goals := Statistics.net_goals s;
         Entry.expected_goals := Statistics.expected_goals s;
         Entry.all_scored := Statistics.all_scored s;
         Entry.status := Statistics.status s;
         Entry.rank := Entry.rank e |}
  | RankData r =>
      {| Entry.id := Entry.id e;
         Entry.footballers := Entry.footballers e;
         Entry.pool := Entry.pool e;
         Entry.profile := Entry.profile e;
         Entry.goals := Entry.goals e;
         Entry.own_goals := Entry.own_goals e;
         Entry.net_goals := Entry.net_goals e;
         Entry.expected_goals := Entry.expected_goals e;
         Entry.all_scored := Entry.all_scored e;
         Entry.status := Entry.status e;
         Entry.rank := Some r |}
  end.

Inductive Error :=
  | PrismaClientInitializationError
  | PrismaClientKnownRequestError
  | PrismaClientUnknownRequestError
  | TypeError
  | HttpError.

Inductive LogLine :=
  | LogRunningGame
  | LogNoEntriesFound
  | LogGameRunSuccessfully
  | ErrFetchingEPLPlayerData (error : Error)
  | ErrUpdatingEntry (entryId : Z) (error : Error)
  | ErrUpdatingRankings (poolId : Z) (error : Error)
  | ErrPrismaInitialize
  | ErrKnownPrisma
  | ErrUnknownPrisma
  | ErrUnexpected (error : Error).

(** The state the program acts on: the entry table, the history of the
    [update] calls issued so far with their outcome ([true]: written), and
    the console. *)
Record World := mkWorld {
  entry_table : gmap Z Entry.t;
  calls : list (UpdateArgs * bool);
  console : list LogLine;
}.

Inductive Completion (A : Type) :=
  | Normal (a : A)
  | Throw (error : Error).
Arguments Normal {A} a.
Arguments Throw {A} error.

Definition Exec (A : Type) : Type := World → Completion A * World.

#[global] Instance Exec_ret : MRet Exec := λ A a w, (Normal a, w).

#[global] Instance Exec_bind : MBind Exec := λ A B f m w,
  match m w with
  | (Normal a, w') => f a w'
  | (Throw error, w') => (Throw error, w')
  end.

Definition throw {A} (error : Error) : Exec A := λ w, (Throw error, w).

(** [try { body } catch (error) { handler }] *)
Definition try_catch {A} (body : Exec A) (handler : Error → Exec A) : Exec A :=
  λ w,
    match body w with
    | (Normal a, w') => (Normal a, w')
    | (Throw error, w') => handler error w'
    end.

(** [for (const x of xs) { body }] *)
Fixpoint for_of {X} (xs : list X) (body : X → Exec unit) : Exec unit :=
  match xs with
  | [] => mret ()
  | x :: xs' => body x ;; for_of xs' body
  end.

Definition console_log (line : LogLine) : Exec unit := λ w,
  (Normal (),
   {| entry_table := entry_table w;
      calls := calls w;
      console := console w ++ [line] |}).

Definition run {A} (m : Exec A) (w : World) : World := (m w).2.

(** ** Ranking: the computation of [updateEntryRankings] *)

(** [poolsMap]: a JavaScript [Map] iterates in insertion order, so it is an
    association list; each value is the array the source pushes onto. *)
Definition PoolsMap : Type := list (Z * list Entry.t).

Definition has (poolsMap : PoolsMap) (key : Z) : bool :=
  existsb (λ kv, kv.1 =? key) poolsMap.

Definition set (poolsMap : PoolsMap) (key : Z) (value : list Entry.t)
    : PoolsMap :=
  if has poolsMap key
  then (λ kv, if kv.1 =? key then (kv.1, value) else kv) <$> poolsMap
  else poolsMap ++ [(key, value)].

(** [poolsMap.get(key).push(entry)]: the array stored under [key] grows in
    place. *)
Definition get_push (poolsMap : PoolsMap) (key : Z) (entry : Entry.t)
    : PoolsMap :=
  (λ kv, if kv.1 =? key then (kv.1, kv.2 ++ [entry]) else kv) <$> poolsMap.

(** One iteration of the grouping loop. *)
Definition groupEntry (poolsMap : PoolsMap) (entry : Entry.t) : PoolsMap :=
  match Entry.pool entry with
  | Some pool =>
      let poolsMap :=
        if has poolsMap (Pool.id pool) then poolsMap
        else set poolsMap (Pool.id pool) [] in
      get_push poolsMap (Pool.id pool) entry
  | None => poolsMap
  end.

Definition groupByPool (entries : list Entry.t) : PoolsMap :=
  fold_left groupEntry entries [].

(** The comparison function handed to [sort].  Only the sign of its result
    is used, and the difference of two binary64 numbers, rounded, has the
    sign of the exact difference. *)
Definition compareFn (useNetGoals : bool) (a b : Entry.t) : Z :=
  if useNetGoals then Entry.net_goals b - Entry.net_goals a
  else Entry.goals b - Entry.goals a.

(** [Array.prototype.sort(comparefn)].  The sort of the language is stable
    and, for a consistent comparison function, its result is the only
    stable sorted arrangement ([stable_sorted_unique] below); insertion from
    the right computes it. *)
Section sort.
Context {A : Type} (comparefn : A → A → Z).

Fixpoint sort_insert (x : A) (sorted : list A) : list A :=
  match sorted with
  | [] => [x]
  | y :: rest =>
      if comparefn x y <=? 0 then x :: y :: rest
      else y :: sort_insert x rest
  end.

Fixpoint sort (l : list A) : list A :=
  match l with
  | [] => []
  | x :: l' => sort_insert x (sort l')
  end.
End sort.

(** What the reads of one invocation return: the footballer table, the
    statistics feed, and whether reading the entries fails. *)
Record Reads := mkReads {
  footballer_findMany : Completion (list Footballer.t);
  bootstrap_static : Completion (list Player.t);
  entry_findMany_error : option Error;
}.

(** ** The effectful passes *)

Section Game.
(** [fails n args]: does the [n]-th [update] call, with arguments [args],
    fail for a reason outside the program, and with which error. *)
Variable fails : nat → UpdateArgs → option Error.

(** [prisma.entry.update({ where: { id }, data })]: rejects when the call
    fails or no record has this identity; otherwise writes [data]. *)
Definition prisma_entry_update (args : UpdateArgs) : Exec unit := λ w,
  let outcome :=
    match entry_table w !! where_id args with
    | None => inr PrismaClientKnownRequestError
    | Some e =>
        match fails (length (calls w)) args with
        | Some error => inr error
        | None => inl (applyData (data args) e)
        end
    end in
  match outcome with
  | inl e' =>
      (Normal (),
       {| entry_table := <[where_id args := e']> (entry_table w);
          calls := calls w ++ [(args, true)];
          console := console w |})
  | inr error =>
      (Throw error,
       {| entry_table := entry_table w;
          calls := calls w ++ [(args, false)];
          console := console w |})
  end.

Definition statisticsArgs (relevantPlayers : list Player.t)
    (entry : Entry.t) : UpdateArgs :=
  {| where_id := Entry.id entry;
     data := StatisticsData
               (computeStatistics relevantPlayers (Entry.footballers entry)) |}.

Definition updateEntryStatistics (entries : list Entry.t)
    (relevantPlayers : list Player.t) : Exec unit :=
  for_of entries (λ entry,
    try_catch
      (prisma_entry_update (statisticsArgs relevantPlayers entry))
      (λ error, console_log (ErrUpdatingEntry (Entry.id entry) error))).

(** [poolEntries[0].pool.rules.own_goals]; reading a property of
    [undefined] or [null] throws a [TypeError]. *)
Definition firstOwnGoalsRule (poolEntries : list Entry.t) : Exec bool :=
  match poolEntries with
  | [] => throw TypeError
  | first :: _ =>
      match Entry.pool first with
      | None => throw TypeError
      | Some pool =>
          match Pool.rules pool with
          | None => throw TypeError
          | Some rules => mret (Rules.own_goals rules)
          end
      end
  end.

Definition rankArgs (i : nat) (entry : Entry.t) : UpdateArgs :=
  {| where_id := Entry.id entry; data := RankData (Z.of_nat i + 1) |}.

(** [for (let i = ...; i < poolEntries.length; i++)] from index [i] on,
    [poolEntries] being the part of the array not yet visited. *)
Fixpoint updateRanksFrom (i : nat) (poolEntries : list Entry.t) : Exec unit :=
  match poolEntries with
  | [] => mret ()
  | entry :: rest =>
      prisma_entry_update (rankArgs i entry) ;;
      updateRanksFrom (S i) rest
  end.

(** The body of the [try] block for one pool. *)
Definition rankPoolEntries (poolEntries : list Entry.t) : Exec unit :=
  useNetGoals ← firstOwnGoalsRule poolEntries;
  let poolEntries := sort (compareFn useNetGoals) poolEntries in
  updateRanksFrom 0 poolEntries.

Definition updateEntryRankings (entries : list Entry.t) : Exec unit :=
  let poolsMap := groupByPool entries in
  for_of poolsMap (λ '(poolId, poolEntries),
    try_catch
      (rankPoolEntries poolEntries)
      (λ error, console_log (ErrUpdatingRankings poolId error))).

(** *** [runGame] *)

Variable reads : Reads.

Definition lift {A} (c : Completion A) : Exec A := λ w, (c, w).

(** The [catch] of [fetchEPLPlayerData] logs and rethrows. *)
Definition fetchEPLPlayerData : Exec (list Player.t) :=
  try_catch (lift (bootstrap_static reads))
    (λ error, console_log (ErrFetchingEPLPlayerData error) ;; throw error).

(** [fetchAllEntries] returns the promise of [findMany] without awaiting
    it, so its own [catch] never sees a rejection. *)
Definition fetchAllEntries : Exec (list Entry.t) := λ w,
  match entry_findMany_error reads with
  | Some error => (Throw error, w)
  | None => (Normal ((map_to_list (entry_table w)).*2), w)
  end.

Definition runGame : Exec unit :=
  try_catch
    (console_log LogRunningGame ;;
     footballers ← lift (footballer_findMany reads);
     let footballerIds := Footballer.id <$> footballers in
     eplPlayers ← fetchEPLPlayerData;
     let relevantPlayers :=
       filter (λ player, Player.id player ∈ footballerIds) eplPlayers in
     entries ← fetchAllEntries;
     if (length entries =? 0)%nat then console_log LogNoEntriesFound
     else
       updateEntryStatistics entries relevantPlayers ;;
       updateEntryRankings entries ;;
       console_log LogGameRunSuccessfully)
    (λ error,
       match error with
       | PrismaClientInitializationError => console_log ErrPrismaInitialize
       | PrismaClientKnownRequestError => console_log ErrKnownPrisma
       | PrismaClientUnknownRequestError => console_log ErrUnknownPrisma
       | _ => console_log (ErrUnexpected error)
       end).

End Game.

(** ** The snapshot job (the earlier entry point of the service)

    [fetchFPLData], [processAndSaveGameState] and [updateGameState]: two
    requests to the statistics provider, then one row appended to the
    game-state table.  The state is the table, the requests issued so far
    and the console; the environment gives what the two requests return,
    the reading of the clock and whether the insertion fails. *)

Module Snapshot.

(** The properties of [generalInfo] the program reads. *)
Record GeneralInfo := mkGeneralInfo {
  total_players : Z;
  current_event : Z;
}.

(** A fixture object of the feed.  [finished] is its only property the
    program reads ([None]: absent or not a boolean); [code] stands for the
    rest of the object. *)
Record Fixture := mkFixture {
  code : Z;
  finished : option bool;
}.

(** [interface FPLData]; [generalInfo] is [any]: [None] is [null] or
    [undefined]. *)
Record FPLData := mkFPLData {
  generalInfo : option GeneralInfo;
  fixtures : list Fixture;
}.

(** [interface GameState] *)
Record GameState := mkGameState {
  timestamp : Z;
  totalPlayers : Z;
  currentGameweek : Z;
  upcomingFixtures : list Fixture;
}.

Inductive Endpoint := BootstrapStatic | Fixtures.

Inductive Line :=
  | GameStateUpdated
  | ErrFetchingFPLData (error : Error)
  | ErrSavingGameState (error : Error)
  | ErrInUpdateGameState (error : Error).

Record World := mkWorld {
  gameState_table : list GameState;
  requests : list Endpoint;
  console : list Line;
}.

Record Env := mkEnv {
  get_bootstrap_static : Completion (option GeneralInfo);
  get_fixtures : Completion (list Fixture);
  now : Z;
  create_error : option Error;
}.

Definition Exec (A : Type) : Type := World → Completion A * World.

#[global] Instance Exec_ret : MRet Exec := λ A a w, (Normal a, w).

#[global] Instance Exec_bind : MBind Exec := λ A B f m w,
  match m w with
  | (Normal a, w') => f a w'
  | (Throw error, w') => (Throw error, w')
  end.

Definition throw {A} (error : Error) : Exec A := λ w, (Throw error, w).

Definition try_catch {A} (body : Exec A) (handler : Error → Exec A) : Exec A :=
  λ w,
    match body w with
    | (Normal a, w') => (Normal a, w')
    | (Throw error, w') => handler error w'
    end.

Definition console_log (line : Line) : Exec unit := λ w,
  (Normal (),
   {| gameState_table := gameState_table w;
      requests := requests w;
      console := console w ++ [line] |}).

Definition run {A} (m : Exec A) (w : World) : World := (m w).2.

Section job.
Variable env : Env.

(** [axios.get(url)] followed by [.data] *)
Definition axios_get {A} (endpoint : Endpoint) (response : Completion A)
    : Exec A := λ w,
  (response,
   {| gameState_table := gameState_table w;
      requests := requests w ++ [endpoint];
      console := console w |}).

Definition fetchFPLData : Exec FPLData :=
  try_catch
    (generalInfo ← axios_get BootstrapStatic (get_bootstrap_static env);
     fixtures ← axios_get Fixtures (get_fixtures env);
     mret {| generalInfo := generalInfo; fixtures := fixtures |})
    (λ error, console_log (ErrFetchingFPLData error) ;; throw error).

(** [prisma.gameState.create({ data })] *)
Definition prisma_gameState_create (data : GameState) : Exec unit := λ w,
  match create_error env with
  | Some error => (Throw error, w)
  | None =>
      (Normal (),
       {| gameState_table := gameState_table w ++ [data];
          requests := requests w;
          console := console w |})
  end.

(** [fixtures.filter((f) => f.finished === false).slice(0, 5)] *)
Definition upcoming (fixtures : list Fixture) : list Fixture :=
  take 5 (filter (λ f, finished f = Some false) fixtures).

(** The object literal is built before the [try]: reading a property of an
    absent [generalInfo] throws outside it. *)
Definition processAndSaveGameState (fplData : FPLData) : Exec unit :=
  gameState ←
    match generalInfo fplData with
    | None => throw TypeError
    | Some info =>
        mret {| timestamp := now env;
                totalPlayers := total_players info;
                currentGameweek := current_event info;
                upcomingFixtures := upcoming (fixtures fplData) |}
    end;
  try_catch
    (prisma_gameState_create gameState ;; console_log GameStateUpdated)
    (λ error, console_log (ErrSavingGameState error) ;; throw error).

Definition updateGameState : Exec unit :=
  try_catch
    (fplData ← fetchFPLData; processAndSaveGameState fplData)
    (λ error, console_log (ErrInUpdateGameState error)).

End job.
End Snapshot.

(** ** Vocabulary of the properties *)

(** The body of the loop over [poolsMap], as a function of the map entry. *)
Definition rankPool (fails : nat → UpdateArgs → option Error)
    (group : Z * list Entry.t) : Exec unit :=
  try_catch (rankPoolEntries fails group.2)
    (λ error, console_log (ErrUpdatingRankings group.1 error)).

Definition rankingKey (useNetGoals : bool) (e : Entry.t) : Z :=
  if useNetGoals then Entry.net_goals e else Entry.goals e.

Definition descending {A} (key : A → Z) : relation A := λ a b, key b ≤ key a.

Definition inPool (poolId : Z) (e : Entry.t) : Prop :=
  Pool.id <$> Entry.pool e = Some poolId.

#[global] Instance inPool_dec poolId e : Decision (inPool poolId e) :=
  decide (Pool.id <$> Entry.pool e = Some poolId).

(** What the grouping loop maintains: distinct keys, and under each key
    exactly the entries of that pool seen so far, in input order. *)
Record Grouped (poolsMap : PoolsMap) (entries : list Entry.t) : Prop := {
  grouped_keys : NoDup poolsMap.*1;
  grouped_values : ∀ poolId poolEntries,
    (poolId, poolEntries) ∈ poolsMap →
    poolEntries = filter (inPool poolId) entries ∧ poolEntries ≠ [];
  grouped_complete : ∀ e poolId,
    e ∈ entries → inPool poolId e → poolId ∈ poolsMap.*1;
}.

(** The fields a statistics update leaves alone, and those a rank update
    leaves alone. *)
Record sameExceptStatistics (e e' : Entry.t) : Prop := {
  stat_id : Entry.id e' = Entry.id e;
  stat_footballers : Entry.footballers e' = Entry.footballers e;
  stat_pool : Entry.pool e' = Entry.pool e;
  stat_profile : Entry.profile e' = Entry.profile e;
  stat_rank : Entry.rank e' = Entry.rank e;
}.

Record sameExceptRank (e e' : Entry.t) : Prop := {
  rank_id : Entry.id e' = Entry.id e;
  rank_footballers : Entry.footballers e' = Entry.footballers e;
  rank_pool : Entry.pool e' = Entry.pool e;
  rank_profile : Entry.profile e' = Entry.profile e;
  rank_goals : Entry.goals e' = Entry.goals e;
  rank_own_goals : Entry.own_goals e' = Entry.own_goals e;
  rank_net_goals : Entry.net_goals e' = Entry.net_goals e;
  rank_expected_goals : Entry.expected_goals e' = Entry.expected_goals e;
  rank_all_scored : Entry.all_scored e' = Entry.all_scored e;
  rank_status : Entry.status e' = Entry.status e;
}.

Definition isStatisticsData (a : UpdateArgs) : Prop :=
  match data a with StatisticsData _ => True | RankData _ => False end.

Definition isRankData (a : UpdateArgs) : Prop :=
  match data a with StatisticsData _ => False | RankData _ => True end.

(** [Footprint D R w w']: from [w] to [w'] the call history and the console
    only grow, every call issued satisfies [D], rows not addressed by such a
    call are untouched, no row appears or disappears, and every row is
    related to its former value by [R]. *)
Record Footprint (D : UpdateArgs → Prop) (R : relation Entry.t)
    (w w' : World) : Prop := {
  fp_calls : ∃ new, calls w' = calls w ++ new ∧ Forall (λ c, D c.1) new;
  fp_console : ∃ lines, console w' = console w ++ lines;
  fp_untouched : ∀ k,
    (∀ a, D a → where_id a ≠ k) → entry_table w' !! k = entry_table w !! k;
  fp_rows : ∀ k,
    option_Forall2 R (entry_table w !! k) (entry_table w' !! k);
}.

Definition preserves (D : UpdateArgs → Prop) (R : relation Entry.t)
    {A} (m : Exec A) : Prop :=
  ∀ w, Footprint D R w (run m w).

(** The calls the passes may issue. *)
Definition statisticsCall (relevantPlayers : list Player.t)
    (entries : list Entry.t) (a : UpdateArgs) : Prop :=
  ∃ e, e ∈ entries ∧ a = statisticsArgs relevantPlayers e.

Definition rankCall (poolEntries : list Entry.t) (a : UpdateArgs) : Prop :=
  isRankData a ∧ ∃ e, e ∈ poolEntries ∧ where_id a = Entry.id e.

(** The rule [firstOwnGoalsRule] reads, as a value. *)
Definition ownGoalsRule (poolEntries : list Entry.t) : option bool :=
  first ← head poolEntries;
  pool ← Entry.pool first;
  rules ← Pool.rules pool;
  Some (Rules.own_goals rules).

(** The rank stored for an entry, if the entry is stored and ranked. *)
Definition storedRank (w : World) (e : Entry.t) : option Z :=
  e' ← entry_table w !! Entry.id e; Entry.rank e'.

Definition scoredIfMatched (relevantPlayers : list Player.t)
    (footballer : Footballer.t) : bool :=
  match findPlayer relevantPlayers footballer with
  | Some playerStats => negb (Player.goals_scored playerStats =? 0)
  | None => true
  end.

(** The new part of the call history of a pass started in [w]. *)
Definition newCalls (w w' : World) : list (UpdateArgs * bool) :=
  drop (length (calls w)) (calls w').

Definition neverFails (fails : nat → UpdateArgs → option Error) : Prop :=
  ∀ n a, fails n a = None.

(** Two entries with the same identity and the same picks. *)
Definition samePicks (e e' : Entry.t) : Prop :=
  Entry.id e = Entry.id e' ∧ Entry.footballers e = Entry.footballers e'.

(** Two worlds with equally many calls and the same rows up to their
    statistics fields. *)
Definition sameUpToStatistics (w w' : World) : Prop :=
  length (calls w) = length (calls w') ∧
  ∀ k, option_Forall2 sameExceptStatistics
         (entry_table w !! k) (entry_table w' !! k).

(** [m] and [m'] run in lockstep from related worlds: same completion,
    related worlds. *)
Definition simulates (Rw : relation World) {A} (m m' : Exec A) : Prop :=
  ∀ w w', Rw w w' → (m w).1 = (m' w').1 ∧ Rw (run m w) (run m' w').

(** The fields neither pass writes. *)
Record sameIdentity (e e' : Entry.t) : Prop := {
  same_id : Entry.id e' = Entry.id e;
  same_footballers : Entry.footballers e' = Entry.footballers e;
  same_pool : Entry.pool e' = Entry.pool e;
  same_profile : Entry.profile e' = Entry.profile e;
}.

(** A store as the database keeps it: each row under its own identity. *)
Definition storeWf (w : World) : Prop :=
  ∀ k e, entry_table w !! k = Some e → Entry.id e = k.

(** What [fetchAllEntries] returns when the read succeeds. *)
Definition loadedEntries (w : World) : list Entry.t :=
  (map_to_list (entry_table w)).*2.

(** The [relevantPlayers] of [runGame]. *)
Definition relevantPlayersOf (footballers : list Footballer.t)
    (eplPlayers : list Player.t) : list Player.t :=
  filter (λ player, Player.id player ∈ Footballer.id <$> footballers)
    eplPlayers.

(** The statistics fields of a row are those the statistics give for its
    picks. *)
Definition freshStatistics (relevantPlayers : list Player.t) (e : Entry.t)
    : Prop :=
  applyData
    (StatisticsData (computeStatistics relevantPlayers (Entry.footballers e))) e
  = e.

(** The line the [catch] of [runGame] prints for an error. *)
Definition runGameErrorLine (error : Error) : LogLine :=
  match error with
  | PrismaClientInitializationError => ErrPrismaInitialize
  | PrismaClientKnownRequestError => ErrKnownPrisma
  | PrismaClientUnknownRequestError => ErrUnknownPrisma
  | _ => ErrUnexpected error
  end.

(** What one pick adds to [goals] and to [ownGoals]. *)
Definition matchedGoals (relevantPlayers : list Player.t)
    (footballer : Footballer.t) : Z :=
  match findPlayer relevantPlayers footballer with
  | Some playerStats => Player.goals_scored playerStats
  | None => 0
  end.

Definition matchedOwnGoals (relevantPlayers : list Player.t)
    (footballer : Footballer.t) : Z :=
  match findPlayer relevantPlayers footballer with
  | Some playerStats => Player.own_goals playerStats
  | None => 0
  end.

Definition sumZ (l : list Z) : Z := foldr Z.add 0 l.

(** The sum of the magnitudes: a bound on every partial sum, in any
    order. *)
Definition magnitude (l : list Z) : Z := sumZ (Z.abs <$> l).



(** The position a stable descending arrangement gives the element at index
    [i] of [l]: behind the elements with a larger key and the elements with
    its key that precede it in [l]. *)
Definition stablePosition {A} (key : A → Z) (l : list A) (i : nat) (e : A)
    : nat :=
  (length (filter (λ a, (key e < key a)%Z) l)
   + length (filter (λ a, key a = key e) (take i l)))%nat.

(** Integers at which the rounding is compared with the library's. *)
Definition roundingSamples : list Z :=
  [0; 1; -1; 21; -22; 2 ^ 53 - 1; 2 ^ 53; 2 ^ 53 + 1; 2 ^ 53 + 2; 2 ^ 53 + 3;
   - (2 ^ 53 + 1); - (2 ^ 53 + 3); 2 ^ 54 - 1; 2 ^ 54 + 2; 2 ^ 54 + 6;
   2 ^ 54 + 5; 2 ^ 60 + 2 ^ 7; 2 ^ 60 + 3 * 2 ^ 7; 2 ^ 60 + 2 ^ 7 + 1;
   2 ^ 64 - 1; 3 ^ 40; - 7 ^ 30; 10 ^ 22; 10 ^ 23; 2 ^ 1000 + 1;
   2 ^ 1024 - 2 ^ 971 + 2 ^ 969].

Definition additionSamples : list Z :=
  [0; 1; -1; 21; 2 ^ 53 - 1; 2 ^ 53; 2 ^ 53 + 1; - 2 ^ 53; 2 ^ 53 + 2;
   2 ^ 54 - 1; 2 ^ 54; - (2 ^ 54 + 4); 2 ^ 60 + 2 ^ 8; 2 ^ 1000].

(** ** A concrete store *)

Module Sample.
Definition pool7 : Pool.t := Pool.mk 7 (Some (Rules.mk false)).
Definition pool8 : Pool.t := Pool.mk 8 (Some (Rules.mk true)).

(** Stored statistics are those of an earlier run. *)
Definition e1 : Entry.t :=
  Entry.mk 1 [Footballer.mk 10] (Some pool7) 100 0 0 0 0%float true ACTIVE None.
Definition e2 : Entry.t :=
  Entry.mk 2 [Footballer.mk 20] (Some pool7) 200 5 0 5 0%float true ACTIVE None.
Definition e3 : Entry.t :=
  Entry.mk 3 [Footballer.mk 10; Footballer.mk 20] (Some pool8) 300
           5 1 4 0%float true ACTIVE (Some 1).
Definition e4 : Entry.t :=
  Entry.mk 4 [Footballer.mk 30] None 400 0 0 0 0%float true ACTIVE (Some 3).
Definition e5 : Entry.t :=
  Entry.mk 5 [Footballer.mk 40] (Some pool7) 500 7 2 5 0%float true ACTIVE None.
(** Not in [store]; ties with [e2] on goals. *)
Definition e6 : Entry.t :=
  Entry.mk 6 [Footballer.mk 10] (Some pool7) 600 5 1 4 0%float true ACTIVE None.

Definition entries : list Entry.t := [e1; e2; e3; e4; e5].

Definition store : World :=
  {| entry_table := list_to_map ((λ e, (Entry.id e, e)) <$> entries);
     calls := [];
     console := [] |}.

Definition players : list Player.t :=
  [ Player.mk 10 9 0 0.5%float;
    Player.mk 20 2 1 0.25%float;
    Player.mk 50 3 0 1%float ].

Definition reads : Reads :=
  {| footballer_findMany :=
       Normal [Footballer.mk 10; Footballer.mk 20; Footballer.mk 30;
               Footballer.mk 40];
     bootstrap_static := Normal players;
     entry_findMany_error := None |}.

(** A store in which entries 2 and 6 of pool 7 tie on goals. *)
Definition tied : list Entry.t := [e1; e2; e4; e6; e5].

Definition tiedStore : World :=
  {| entry_table := list_to_map ((λ e, (Entry.id e, e)) <$> tied);
     calls := [];
     console := [] |}.

Definition noFailure : nat → UpdateArgs → option Error := λ _ _, None.

(** Every write addressed to entry 1 fails. *)
Definition entry1Fails : nat → UpdateArgs → option Error := λ _ a,
  if where_id a =? 1 then Some PrismaClientUnknownRequestError else None.
End Sample.

(** ** More sample data *)

Module MoreSamples.
Definition emptyStore : World :=
  {| entry_table := ∅; calls := []; console := [] |}.

(** Reads in which, in turn, the footballers, the feed and the entries
    fail. *)
Definition footballersFail : Reads :=
  mkReads (Throw PrismaClientInitializationError) (Normal Sample.players) None.
Definition feedFails : Reads :=
  mkReads (footballer_findMany Sample.reads) (Throw HttpError) None.
Definition entriesFail : Reads :=
  mkReads (footballer_findMany Sample.reads) (Normal Sample.players)
          (Some PrismaClientKnownRequestError).

Definition knownFootballers : list Footballer.t :=
  [Footballer.mk 10; Footballer.mk 20; Footballer.mk 30; Footballer.mk 40].

(** An entry in a pool that has no rules. *)
Definition pool9 : Pool.t := Pool.mk 9 None.
Definition e7 : Entry.t :=
  Entry.mk 7 [Footballer.mk 10] (Some pool9) 700 4 0 4 0%float true ACTIVE
           (Some 5).

Definition withOrphan : list Entry.t := [Sample.e1; e7; Sample.e2].

Definition orphanStore : World :=
  {| entry_table := list_to_map ((λ e, (Entry.id e, e)) <$> withOrphan);
     calls := [];
     console := [] |}.

(** A feed of eight fixtures: six not finished, one finished, one without a
    boolean [finished]. *)
Definition fixture (code : Z) (finished : option bool) : Snapshot.Fixture :=
  Snapshot.mkFixture code finished.

Definition fixtures : list Snapshot.Fixture :=
  [ fixture 1 (Some true); fixture 2 (Some false); fixture 3 None;
    fixture 4 (Some false); fixture 5 (Some false); fixture 6 (Some false);
    fixture 7 (Some false); fixture 8 (Some false) ].

Definition info : Snapshot.GeneralInfo := Snapshot.mkGeneralInfo 11000000 7.

Definition snapshots : Snapshot.World :=
  {| Snapshot.gameState_table := [Snapshot.mkGameState 1000 10000000 6 []];
     Snapshot.requests := [];
     Snapshot.console := [] |}.

(** A feed with counters beyond 2^53, and an entry that picks from it. *)
Definition hugeFeed : list Player.t :=
  [ Player.mk 10 (2 ^ 54) 1 0%float;
    Player.mk 20 (2 ^ 53) 0 0%float;
    Player.mk 30 1 0 0%float;
    Player.mk 40 1 0 0%float ].






Definition env (bootstrap : Completion (option Snapshot.GeneralInfo))
    (fixturesResponse : Completion (list Snapshot.Fixture))
    (create_error : option Error) : Snapshot.Env :=
  Snapshot.mkEnv bootstrap fixturesResponse 2000 create_error.
End MoreSamples.

(** * Properties *)

(** ** Sanity checks on concrete inputs (section 8 of the specification) *)

Example scenario_A :
  computeStatistics
    [Player.mk 1 10 1 1.5%float; Player.mk 2 5 0 0.8%float]
    [Footballer.mk 1; Footballer.mk 2]
  = Statistics.mk 15 1 14 2.3%float true ACTIVE.
Proof. vm_compute. reflexivity. Qed.

Example scenario_B :
  computeStatistics [Player.mk 3 0 0 0.1%float] [Footballer.mk 3]
  = Statistics.mk 0 0 0 0.1%float false SHORT.
Proof. vm_compute. reflexivity. Qed.

Example scenario_C :
  Statistics.status
    (computeStatistics [Player.mk 4 22 0 0%float] [Footballer.mk 4])
  = BUST.
Proof. reflexivity. Qed.

Example scenario_D :
  let pool := Some (Pool.mk 1 (Some (Rules.mk false))) in
  let a := Entry.mk 1 [] pool 0 10 0 10 0%float true ACTIVE None in
  let b := Entry.mk 2 [] pool 0 15 0 15 0%float true ACTIVE None in
  let w := {| entry_table := {[ 1 := a; 2 := b ]}; calls := []; console := [] |} in
  storedRank (run (updateEntryRankings Sample.noFailure [a; b]) w)
    <$> [a; b]
  = [Some 2; Some 1].
Proof. vm_compute. reflexivity. Qed.

(** [toFixed] rounds the exact binary value, half-way cases upwards. *)
Example toFixed2_values :
  parseFloat <$> (toFixed2 <$> [1.005; 2.675; 8.345; -0.001; 1e21; 0.125])%float
  = [1; 2.67; 8.35; -0; 1e21; 0.13]%float.
Proof. vm_compute. reflexivity. Qed.

(** ** The arithmetic of the counters *)

(** The rounding written out in [Number] is the rounding of the library's
    binary64 operations: on a range of integers below and above 2^53,
    halfway cases with an even and with an odd significand included, and
    on all their pairwise sums and differences. *)
Example nearest_is_binary64 :
  Forall (λ z, Number.integer (Number.binary64 z) = Some (Number.nearest z))
    roundingSamples.
Proof. apply (bool_decide_unpack _). vm_compute. exact I. Qed.

Example add_is_binary64 :
  Forall (λ xy, Number.integer (SFadd prec emax (Number.binary64 xy.1)
                                                 (Number.binary64 xy.2))
                = Some (Number.add xy.1 xy.2)
                ∧ Number.integer (SFsub prec emax (Number.binary64 xy.1)
                                                    (Number.binary64 xy.2))
                  = Some (Number.sub xy.1 xy.2))
    (x ← additionSamples; y ← additionSamples; [(x, y)]).
Proof. apply (bool_decide_unpack _). vm_compute. exact I. Qed.

(** Up to 2^53 in magnitude nothing is rounded. *)
Lemma nearest_safe z : Number.safe z → Number.nearest z = z.
Proof.
  unfold Number.safe, Number.nearest. intros Hz. cbv zeta.
  destruct (Z.leb_spec (Z.log2 (Z.abs z) - 52) 0) as [|Hbits]; [done|].
  assert (Z.abs z = 2 ^ 53) as Habs.
  { assert (53 ≤ Z.log2 (Z.abs z)) as Hlog by lia.
    assert (0 < Z.abs z) as Hpos.
    { destruct (Z.abs z) eqn:E; try lia. simpl in Hlog. lia. }
    pose proof (Z.log2_spec _ Hpos) as [Hlo _].
    assert (2 ^ 53 ≤ 2 ^ Z.log2 (Z.abs z)) by (apply Z.pow_le_mono_r; lia).
    lia. }
  rewrite Habs. change (Z.log2 (2 ^ 53) - 52) with 1.
  change ((2 ^ 53) `div` 2 ^ 1) with (2 ^ 52).
  change ((2 ^ 53) `mod` 2 ^ 1) with 0. simpl.
  change (4503599627370496 * 2) with (2 ^ 53). lia.
Qed.



Lemma add_safe x y :
  Number.safe x → Number.safe y → Number.safe (x + y) →
  Number.add x y = x + y.
Proof.
  intros Hx Hy Hxy. unfold Number.add.
  by rewrite (nearest_safe x), (nearest_safe y), nearest_safe.
Qed.

Lemma sub_safe x y :
  Number.safe x → Number.safe y → Number.safe (x - y) →
  Number.sub x y = x - y.
Proof.
  intros Hx Hy Hxy. unfold Number.sub.
  by rewrite (nearest_safe x), (nearest_safe y), nearest_safe.
Qed.

(** ** The sort: a stable arrangement in descending order of the key *)

Lemma filter_nil_Forall {A} (P : A → Prop) `{∀ x, Decision (P x)} (l : list A) :
  Forall (λ x, ¬ P x) l → filter P l = [].
Proof.
  induction 1 as [|x l Hx Hl IH]; [done|]. by rewrite filter_cons_False.
Qed.

Section sort_facts.
Context {A : Type} (comparefn : A → A → Z) (key : A → Z).
Hypothesis comparefn_key : ∀ a b, comparefn a b = key b - key a.

Lemma sort_insert_perm x l : sort_insert comparefn x l ≡ₚ x :: l.
Proof.
  induction l as [|y l IH]; simpl; [done|].
  case_match; [done|]. rewrite IH. apply Permutation_swap.
Qed.

Lemma sort_perm l : sort comparefn l ≡ₚ l.
Proof.
  induction l as [|x l IH]; simpl; [done|].
  by rewrite sort_insert_perm, IH.
Qed.

Lemma sort_length l : length (sort comparefn l) = length l.
Proof. by rewrite sort_perm. Qed.

Lemma sort_insert_descending x l :
  StronglySorted (descending key) l →
  StronglySorted (descending key) (sort_insert comparefn x l).
Proof.
  induction 1 as [|y l Hl IH Hy]; simpl.
  - repeat constructor.
  - rewrite comparefn_key. case_match eqn:Hc.
    + apply Z.leb_le in Hc. constructor; [by constructor|].
      constructor; [unfold descending; lia|].
      eapply Forall_impl; [exact Hy|]. unfold descending. intros; lia.
    + apply Z.leb_gt in Hc. constructor; [done|].
      rewrite sort_insert_perm. constructor; [unfold descending; lia|done].
Qed.

Lemma sort_descending l : StronglySorted (descending key) (sort comparefn l).
Proof.
  induction l; simpl; [constructor|]. by apply sort_insert_descending.
Qed.

(** Stability: entries with the same key keep their relative order. *)
Lemma sort_insert_stable k x l :
  filter (λ a, key a = k) (sort_insert comparefn x l)
  = filter (λ a, key a = k) (x :: l).
Proof.
  induction l as [|y l IH]; simpl; [done|].
  rewrite comparefn_key. case_match eqn:Hc; [done|].
  apply Z.leb_gt in Hc.
  rewrite (filter_cons _ y), IH, !filter_cons.
  repeat case_decide; try done; lia.
Qed.

Lemma sort_stable k l :
  filter (λ a, key a = k) (sort comparefn l) = filter (λ a, key a = k) l.
Proof.
  induction l as [|x l IH]; simpl; [done|].
  by rewrite sort_insert_stable, !filter_cons, IH.
Qed.

(** Two descending arrangements with the same order among equal keys are
    the same list: the result of a stable sort does not depend on the
    algorithm. *)
Lemma stable_sorted_unique l1 l2 :
  StronglySorted (descending key) l1 →
  StronglySorted (descending key) l2 →
  (∀ k, filter (λ a, key a = k) l1 = filter (λ a, key a = k) l2) →
  l1 = l2.
Proof.
  intros H1. revert l2.
  induction H1 as [|x l1 Hl1 IH Hx]; intros l2 H2 Hf.
  - destruct l2 as [|y l2]; [done|].
    specialize (Hf (key y)). rewrite filter_cons_True in Hf by done.
    by rewrite filter_nil in Hf.
  - destruct H2 as [|y l2 Hl2 Hy].
    { specialize (Hf (key x)). rewrite filter_cons_True in Hf by done.
      by rewrite filter_nil in Hf. }
    assert (key x = key y) as Hxy.
    { assert (x ∈ y :: l2) as Hin.
      { eapply (list_elem_of_filter (λ a, key a = key x)).
        rewrite <-Hf, filter_cons_True by done. left. }
      assert (y ∈ x :: l1) as Hin'.
      { eapply (list_elem_of_filter (λ a, key a = key y)).
        rewrite Hf, filter_cons_True by done. left. }
      apply elem_of_cons in Hin as [->|Hin]; [done|].
      apply elem_of_cons in Hin' as [->|Hin']; [done|].
      rewrite Forall_forall in Hx, Hy.
      specialize (Hx _ Hin'). specialize (Hy _ Hin).
      unfold descending in *. lia. }
    assert (x = y) as ->.
    { specialize (Hf (key x)).
      rewrite filter_cons_True, filter_cons_True in Hf by done.
      congruence. }
    f_equal. apply IH; [done|]. intros k. specialize (Hf k).
    rewrite !filter_cons in Hf. case_decide; congruence.
Qed.

(** Equal keys occupy consecutive positions of a descending list. *)
Lemma descending_contiguous l i j n a b c :
  StronglySorted (descending key) l →
  (i ≤ j ≤ n)%nat →
  l !! i = Some a → l !! j = Some b → l !! n = Some c →
  key a = key c → key b = key a.
Proof.
  intros Hl Hij Ha Hb Hc Hac.
  assert (∀ i j a b, (i ≤ j)%nat → l !! i = Some a → l !! j = Some b →
            key b ≤ key a) as Hmono.
  { clear -Hl. intros i j a b Hij Ha Hb.
    destruct (decide (i = j)) as [->|Hne]; [by simplify_eq|].
    revert i j Hij Hne Ha Hb.
    induction Hl as [|x l Hl IH Hx]; intros i j Hij Hne Ha Hb; [done|].
    destruct i as [|i], j as [|j]; simpl in *; try lia.
    - simplify_eq. rewrite Forall_forall in Hx.
      apply Hx. by eapply list_elem_of_lookup_2.
    - eapply (IH i j); eauto; lia. }
  pose proof (Hmono i j a b ltac:(lia) Ha Hb).
  pose proof (Hmono j n b c ltac:(lia) Hb Hc). lia.
Qed.
(** A descending list is its entries above a key, then those at the key,
    then those below it. *)
Lemma descending_split k l :
  StronglySorted (descending key) l →
  l = filter (λ a, k < key a) l ++ filter (λ a, key a = k) l
      ++ filter (λ a, key a < k) l.
Proof.
  induction 1 as [|x l Hl IH Hx]; [done|].
  rewrite !filter_cons.
  destruct (decide (k < key x)) as [Hgt|Hle].
  - rewrite decide_False, decide_False by lia. simpl. by f_equal.
  - assert (filter (λ a, k < key a) l = []) as Hnone.
    { apply filter_nil_Forall. eapply Forall_impl; [exact Hx|].
      unfold descending. intros; lia. }
    rewrite Hnone in IH |- *. simpl in IH |- *.
    destruct (decide (key x = k)) as [Heq|Hne].
    + rewrite decide_False by lia. simpl. by f_equal.
    + assert (filter (λ a, key a = k) l = []) as Hnone'.
      { apply filter_nil_Forall. eapply Forall_impl; [exact Hx|].
        unfold descending. intros; lia. }
      rewrite Hnone' in IH |- *. simpl in IH |- *.
      rewrite decide_True by lia. by f_equal.
Qed.

(** The position of an entry after the sort: behind the entries with a
    larger key and the entries with its key that precede it in the input. *)
Lemma sort_position l i e :
  l !! i = Some e → sort comparefn l !! stablePosition key l i e = Some e.
Proof.
  intros Hi. unfold stablePosition.
  rewrite (descending_split (key e) (sort comparefn l)) by apply sort_descending.
  rewrite sort_stable.
  assert (length (filter (λ a, key e < key a) (sort comparefn l))
          = length (filter (λ a, key e < key a) l)) as Hlen
    by (by rewrite sort_perm).
  rewrite lookup_app_r by lia. rewrite Hlen.
  replace (_ + _ - _)%nat
    with (length (filter (λ a, key a = key e) (take i l))) by lia.
  rewrite <-(take_drop_middle l i e Hi) at 2.
  rewrite filter_app, filter_cons_True by done.
  rewrite <-app_assoc. simpl. apply list_lookup_middle. reflexivity.
Qed.

(** Of two entries with the same key, the one that comes first in the input
    comes first after the sort. *)
Lemma stablePosition_tie l i j a b :
  (i < j)%nat → l !! i = Some a → l !! j = Some b → key a = key b →
  (stablePosition key l i a < stablePosition key l j b)%nat.
Proof.
  intros Hij Ha Hb Hab. unfold stablePosition. rewrite Hab.
  assert (length (filter (λ x, key x = key b) (take i l))
          < length (filter (λ x, key x = key b) (take j l)))%nat; [|lia].
  assert (take j l = take i l ++ a :: take (j - S i) (drop (S i) l)) as ->.
  { rewrite <-(take_drop_middle l i a Ha) at 1.
    rewrite take_app_ge by (rewrite length_take; lia).
    rewrite length_take_le by (apply lookup_lt_Some in Ha; lia).
    replace (j - i)%nat with (S (j - S i)) by lia. done. }
  rewrite filter_app, filter_cons_True by done.
  rewrite length_app. simpl. lia.
Qed.
End sort_facts.

Lemma compareFn_rankingKey useNetGoals a b :
  compareFn useNetGoals a b
  = rankingKey useNetGoals b - rankingKey useNetGoals a.
Proof. by destruct useNetGoals. Qed.

(** ** The grouping: one array per pool, each in input order *)

Lemma has_true poolsMap key : has poolsMap key = true ↔ key ∈ poolsMap.*1.
Proof.
  unfold has. rewrite existsb_exists, list_elem_of_fmap.
  setoid_rewrite <-list_elem_of_In.
  split.
  - intros (kv & Hin & Heq). apply Z.eqb_eq in Heq. by exists kv.
  - intros (kv & Heq & Hin). exists kv. by rewrite Z.eqb_eq.
Qed.

Lemma get_push_keys poolsMap key e : (get_push poolsMap key e).*1 = poolsMap.*1.
Proof.
  unfold get_push. rewrite <-list_fmap_compose.
  apply list_fmap_ext. intros _ [k v] _. simpl. by case_match.
Qed.

Lemma get_push_absent poolsMap key e :
  key ∉ poolsMap.*1 → get_push poolsMap key e = poolsMap.
Proof.
  intros Hk. unfold get_push. rewrite <-(list_fmap_id poolsMap) at 2.
  apply list_fmap_ext. intros i [k v] Hi. simpl.
  case_match eqn:Heq; [|done]. apply Z.eqb_eq in Heq as ->.
  destruct Hk. apply list_elem_of_fmap. exists (key, v).
  split; [done|]. by eapply list_elem_of_lookup_2.
Qed.

Lemma elem_of_get_push poolsMap key e k v :
  (k, v) ∈ get_push poolsMap key e →
  ∃ v0, (k, v0) ∈ poolsMap ∧ v = if k =? key then v0 ++ [e] else v0.
Proof.
  unfold get_push. rewrite list_elem_of_fmap. intros ([k0 v0] & Heq & Hin).
  cbn in Heq. exists v0. destruct (k0 =? key) eqn:Hk; simplify_eq; by rewrite Hk.
Qed.

Lemma filter_inPool_snoc poolId entries e :
  filter (inPool poolId) (entries ++ [e])
  = filter (inPool poolId) entries ++ (if decide (inPool poolId e) then [e] else []).
Proof. rewrite filter_app, filter_cons, filter_nil. by case_decide. Qed.

Lemma filter_none {A} (P : A → Prop) `{∀ x, Decision (P x)} (l : list A) :
  (∀ x, x ∈ l → ¬ P x) → filter P l = [].
Proof.
  induction l as [|x l IH]; intros Hl; [done|].
  rewrite filter_cons_False by (apply Hl; left).
  apply IH. intros y Hy. apply Hl. by right.
Qed.

Lemma groupEntry_Grouped poolsMap entries e :
  Grouped poolsMap entries → Grouped (groupEntry poolsMap e) (entries ++ [e]).
Proof.
  intros [Hkeys Hvals Hcompl]. unfold groupEntry.
  destruct (Entry.pool e) as [pool|] eqn:Hpool.
  - set (q := Pool.id pool).
    assert (inPool q e) as He by (unfold inPool; by rewrite Hpool).
    assert (∀ p, inPool p e → p = q) as Huniq.
    { intros p Hp. unfold inPool in Hp. rewrite Hpool in Hp. by simplify_eq/=. }
    destruct (has poolsMap q) eqn:Hhas.
    + apply has_true in Hhas. split.
      * by rewrite get_push_keys.
      * intros p g Hin. apply elem_of_get_push in Hin as (g0 & Hin & ->).
        destruct (Hvals _ _ Hin) as [-> Hne].
        rewrite filter_inPool_snoc.
        destruct (p =? q) eqn:Hpq.
        -- apply Z.eqb_eq in Hpq as ->. rewrite decide_True by done.
           split; [done|]. by destruct (filter _ _).
        -- apply Z.eqb_neq in Hpq.
           rewrite decide_False; [|intros Hp; by apply Huniq in Hp].
           by rewrite app_nil_r.
      * intros e' p. rewrite get_push_keys, elem_of_app, list_elem_of_singleton.
        intros [?| ->] Hp; [by eapply Hcompl|]. by rewrite (Huniq _ Hp).
    + assert (q ∉ poolsMap.*1) as Hq.
      { rewrite <-has_true. by rewrite Hhas. }
      assert (get_push (set poolsMap q []) q e = poolsMap ++ [(q, [e])]) as ->.
      { unfold set. rewrite Hhas. unfold get_push at 1. rewrite fmap_app.
        fold (get_push poolsMap q e). rewrite get_push_absent by done.
        simpl. by rewrite Z.eqb_refl. }
      split.
      * rewrite fmap_app. simpl. apply NoDup_app. split_and!; [done| |].
        -- intros k Hk. rewrite list_elem_of_singleton. by intros ->.
        -- apply NoDup_singleton.
      * intros p g. rewrite elem_of_app, list_elem_of_singleton.
        rewrite filter_inPool_snoc. intros [Hin|Heq].
        -- destruct (Hvals _ _ Hin) as [-> Hne].
           rewrite decide_False, app_nil_r; [done|].
           intros Hp. apply Huniq in Hp as ->. apply Hq.
           apply list_elem_of_fmap. by exists (q, filter (inPool q) entries).
        -- simplify_eq. rewrite decide_True by done. split; [|done].
           assert (filter (inPool q) entries = []) as ->; [|done].
           apply filter_none. intros e' He' Hq'. by eapply Hq, Hcompl.
      * intros e' p. rewrite fmap_app, !elem_of_app. simpl.
        rewrite !list_elem_of_singleton.
        intros [?| ->] Hp; [left; by eapply Hcompl|]. right. by apply Huniq.
  - split; [done| |].
    + intros p g Hin. destruct (Hvals _ _ Hin) as [-> Hne].
      rewrite filter_inPool_snoc, decide_False, app_nil_r; [done|].
      unfold inPool. by rewrite Hpool.
    + intros e' p. rewrite elem_of_app, list_elem_of_singleton.
      intros [?| ->] Hp; [by eapply Hcompl|].
      unfold inPool in Hp. by rewrite Hpool in Hp.
Qed.

Lemma groupByPool_Grouped entries : Grouped (groupByPool entries) entries.
Proof.
  unfold groupByPool.
  assert (∀ es m es0, Grouped m es0 →
            Grouped (fold_left groupEntry es m) (es0 ++ es)) as Hgen.
  { induction es as [|e es IH]; intros m es0 Hm; simpl.
    - by rewrite app_nil_r.
    - rewrite (cons_middle e es0 es), app_assoc.
      by apply IH, groupEntry_Grouped. }
  apply (Hgen entries [] []). split; [constructor|inversion 1|inversion 1].
Qed.

(** Distinct identities determine the entry. *)
Lemma NoDup_id_inj (entries : list Entry.t) e e' :
  NoDup (Entry.id <$> entries) →
  e ∈ entries → e' ∈ entries → Entry.id e = Entry.id e' → e = e'.
Proof.
  induction entries as [|x l IH]; [inversion 2|].
  rewrite fmap_cons, NoDup_cons, !elem_of_cons.
  intros [Hx Hl] [->|He] [->|He'] Hid; [done| | |by apply IH].
  - destruct Hx. rewrite Hid. by apply list_elem_of_fmap_2.
  - destruct Hx. rewrite <-Hid. by apply list_elem_of_fmap_2.
Qed.

Lemma NoDup_id_filter (P : Entry.t → Prop) `{∀ e, Decision (P e)} entries :
  NoDup (Entry.id <$> entries) → NoDup (Entry.id <$> filter P entries).
Proof.
  intros Hnd. eapply sublist_NoDup; [exact Hnd|].
  apply fmap_sublist, sublist_filter.
Qed.

(** The groups partition the identities of the entries they hold. *)
Lemma Grouped_NoDup_ids poolsMap entries :
  Grouped poolsMap entries →
  NoDup (Entry.id <$> entries) →
  NoDup (Entry.id <$> mjoin poolsMap.*2).
Proof.
  intros [Hkeys Hvals _] Hnd.
  induction poolsMap as [|[p g] m IH]; [constructor|].
  rewrite !fmap_cons in *. cbn [snd fst mjoin list_join] in *.
  rewrite fmap_app. apply NoDup_app.
  apply NoDup_cons in Hkeys as [Hp Hkeys].
  destruct (Hvals p g) as [Hg _]; [left|].
  split_and!.
  - rewrite Hg. by apply NoDup_id_filter.
  - intros k Hk Hk'.
    apply list_elem_of_fmap in Hk as (e & -> & He).
    apply list_elem_of_fmap in Hk' as (e' & Hid & He').
    apply list_elem_of_join in He' as (g' & He' & Hg').
    apply list_elem_of_fmap in Hg' as ([p' g''] & Heq & Hg').
    cbn in Heq. subst g'.
    destruct (Hvals p' g'') as [Hg'' _]; [by right|].
    rewrite Hg'' in He'. rewrite Hg in He.
    apply list_elem_of_filter in He as [Hpe He].
    apply list_elem_of_filter in He' as [Hpe' He'].
    assert (e = e') as <- by by eapply NoDup_id_inj.
    unfold inPool in *. rewrite Hpe in Hpe'. injection Hpe' as <-.
    apply Hp. apply list_elem_of_fmap. by exists (p, g'').
  - apply IH; [done|]. intros p' g' Hin. apply Hvals. by right.
Qed.

Lemma Grouped_ids_in_pool poolsMap entries e :
  Grouped poolsMap entries →
  e ∈ mjoin poolsMap.*2 → e ∈ entries ∧ is_Some (Entry.pool e).
Proof.
  intros [_ Hvals _] He.
  apply list_elem_of_join in He as (g & He & Hg).
  apply list_elem_of_fmap in Hg as ([p g'] & ? & Hg). simplify_eq/=.
  destruct (Hvals _ _ Hg) as [-> _].
  apply list_elem_of_filter in He as [Hp He]. split; [done|].
  unfold inPool in Hp. by destruct (Entry.pool e).
Qed.

(** ** Footprints of the effectful code *)

#[global] Instance sameExceptStatistics_preorder : PreOrder sameExceptStatistics.
Proof.
  split; [by intros e|].
  intros e1 e2 e3 [] []. split; congruence.
Qed.

#[global] Instance sameExceptRank_preorder : PreOrder sameExceptRank.
Proof.
  split; [by intros e|].
  intros e1 e2 e3 [] []. split; congruence.
Qed.

Lemma applyData_statistics a e :
  isStatisticsData a → sameExceptStatistics e (applyData (data a) e).
Proof. unfold isStatisticsData. by destruct (data a). Qed.

Lemma applyData_rank a e :
  isRankData a → sameExceptRank e (applyData (data a) e).
Proof. unfold isRankData. by destruct (data a). Qed.

Section footprint.
Context (D : UpdateArgs → Prop) (R : relation Entry.t) `{!PreOrder R}.

Lemma Footprint_refl w : Footprint D R w w.
Proof.
  split; [exists []|exists []|done|].
  - by rewrite app_nil_r.
  - by rewrite app_nil_r.
  - intros k. destruct (entry_table w !! k); by constructor.
Qed.

Lemma Footprint_trans w1 w2 w3 :
  Footprint D R w1 w2 → Footprint D R w2 w3 → Footprint D R w1 w3.
Proof.
  intros [(n1 & Hc1 & Hd1) (l1 & Hl1) Hu1 Hr1]
         [(n2 & Hc2 & Hd2) (l2 & Hl2) Hu2 Hr2].
  split.
  - exists (n1 ++ n2). rewrite Hc2, Hc1, app_assoc.
    split; [done|]. by apply Forall_app.
  - exists (l1 ++ l2). by rewrite Hl2, Hl1, app_assoc.
  - intros k Hk. by rewrite Hu2, Hu1.
  - intros k. specialize (Hr1 k). specialize (Hr2 k).
    destruct Hr1; inversion Hr2; simplify_eq; constructor.
    by etrans.
Qed.

Lemma preserves_ret {A} (a : A) : preserves D R (mret a).
Proof. intros w. apply Footprint_refl. Qed.

Lemma preserves_throw {A} error : preserves D R (@throw A error).
Proof. intros w. apply Footprint_refl. Qed.

Lemma preserves_bind {A B} (m : Exec A) (f : A → Exec B) :
  preserves D R m → (∀ a, preserves D R (f a)) → preserves D R (m ≫= f).
Proof.
  intros Hm Hf w. specialize (Hm w). unfold run, mbind, Exec_bind in *.
  destruct (m w) as [[a|error] w1]; simpl in *; [|done].
  eapply Footprint_trans; [exact Hm|]. apply Hf.
Qed.

Lemma preserves_try_catch {A} (body : Exec A) handler :
  preserves D R body → (∀ error, preserves D R (handler error)) →
  preserves D R (try_catch body handler).
Proof.
  intros Hm Hh w. specialize (Hm w). unfold run, try_catch in *.
  destruct (body w) as [[a|error] w1]; simpl in *; [done|].
  eapply Footprint_trans; [exact Hm|]. apply Hh.
Qed.

Lemma preserves_for_of {X} (xs : list X) body :
  (∀ x, x ∈ xs → preserves D R (body x)) → preserves D R (for_of xs body).
Proof.
  induction xs as [|x xs IH]; intros Hbody; simpl.
  - apply preserves_ret.
  - apply preserves_bind; [apply Hbody; left|].
    intros _. apply IH. intros y Hy. apply Hbody. by right.
Qed.

Lemma preserves_console_log line : preserves D R (console_log line).
Proof.
  intros w. split; simpl; [exists []|by exists [line]|done|].
  - by rewrite app_nil_r.
  - intros k. destruct (entry_table w !! k); by constructor.
Qed.

Lemma preserves_update fails args :
  D args → (∀ e, R e (applyData (data args) e)) →
  preserves D R (prisma_entry_update fails args).
Proof.
  intros Hd Hr w. unfold run, prisma_entry_update.
  destruct (entry_table w !! where_id args) as [e|] eqn:He;
    [destruct (fails _ _)|]; simpl.
  all: split; simpl;
    [eexists; split; [done|by repeat constructor]
    |exists []; by rewrite app_nil_r | |].
  all: try done.
  all: try (intros k; destruct (entry_table w !! k); by constructor).
  - intros k Hk. rewrite lookup_insert_ne; [done|]. by apply Hk.
  - intros k. destruct (decide (where_id args = k)) as [<-|Hne].
    + rewrite He, lookup_insert_eq. by constructor.
    + rewrite lookup_insert_ne by done.
      destruct (entry_table w !! k); by constructor.
Qed.
End footprint.

Lemma Footprint_weaken (D D' : UpdateArgs → Prop) R w w' :
  (∀ a, D a → D' a) → Footprint D R w w' → Footprint D' R w w'.
Proof.
  intros Hd [(new & Hc & Hn) Hl Hu Hr]. split; [|done| |done].
  - exists new. split; [done|]. eapply Forall_impl; [exact Hn|].
    intros c. apply Hd.
  - intros k Hk. apply Hu. intros a Ha. apply Hk, Hd, Ha.
Qed.

Lemma for_of_ext {X} (xs : list X) (body body' : X → Exec unit) :
  (∀ x, body x = body' x) → for_of xs body = for_of xs body'.
Proof.
  intros Heq. induction xs as [|x xs IH]; simpl; [done|].
  by rewrite Heq, IH.
Qed.

(** Iterations that cannot throw compose: the loop over [xs1 ++ xs2] is the
    loop over [xs1] followed by the loop over [xs2]. *)
Lemma for_of_app {X} (xs1 xs2 : list X) (body : X → Exec unit) w :
  (∀ x w, (body x w).1 = Normal ()) →
  run (for_of (xs1 ++ xs2) body) w
  = run (for_of xs2 body) (run (for_of xs1 body) w).
Proof.
  intros Hn. revert w. induction xs1 as [|x xs1 IH]; intros w; [done|].
  simpl. unfold run, mbind, Exec_bind in *. specialize (Hn x w).
  destruct (body x w) as [[[]|error] w1]; [|done]. apply IH.
Qed.

Lemma try_catch_log_normal (body : Exec unit) (line : Error → LogLine) w :
  (try_catch body (λ error, console_log (line error)) w).1 = Normal ().
Proof. unfold try_catch. by destruct (body w) as [[[]|error] w1]. Qed.

(** ** One [update] call *)

Section update_facts.
Variable fails : nat → UpdateArgs → option Error.

Lemma prisma_entry_update_success args w e :
  entry_table w !! where_id args = Some e →
  fails (length (calls w)) args = None →
  prisma_entry_update fails args w
  = (Normal (),
     {| entry_table := <[where_id args := applyData (data args) e]> (entry_table w);
        calls := calls w ++ [(args, true)];
        console := console w |}).
Proof. intros He Hf. unfold prisma_entry_update. by rewrite He, Hf. Qed.

(** Every call is recorded, with its outcome, and writes nothing to the
    console. *)
Lemma prisma_entry_update_calls args w :
  ∃ ok,
    calls (run (prisma_entry_update fails args) w) = calls w ++ [(args, ok)] ∧
    console (run (prisma_entry_update fails args) w) = console w ∧
    (if ok then (prisma_entry_update fails args w).1 = Normal ()
     else ∃ error, (prisma_entry_update fails args w).1 = Throw error).
Proof.
  unfold run, prisma_entry_update.
  destruct (entry_table w !! where_id args) as [e|];
    [destruct (fails _ _)|]; simpl.
  - exists false. eauto.
  - by exists true.
  - exists false. eauto.
Qed.

(** The loop body of the aggregation, and of any caught single update:
    it completes normally whatever the call does. *)
Lemma caught_update_calls args (line : Error → LogLine) w :
  let body := try_catch (prisma_entry_update fails args)
                        (λ error, console_log (line error)) in
  (body w).1 = Normal () ∧
  ∃ ok, calls (run body w) = calls w ++ [(args, ok)].
Proof.
  simpl. unfold run, try_catch.
  destruct (prisma_entry_update_calls args w) as (ok & Hc & _ & Hok).
  unfold run in Hc.
  destruct (prisma_entry_update fails args w) as [[[]|error] w1]; simpl in *.
  - eauto.
  - eauto.
Qed.
End update_facts.

(** ** The aggregation pass *)

Section aggregation_facts.
Variable fails : nat → UpdateArgs → option Error.
Variable relevantPlayers : list Player.t.

Lemma updateEntryStatistics_normal entries w :
  (updateEntryStatistics fails entries relevantPlayers w).1 = Normal ().
Proof.
  unfold updateEntryStatistics. revert w.
  induction entries as [|e entries IH]; intros w; simpl; [done|].
  unfold mbind, Exec_bind.
  pose proof (caught_update_calls fails (statisticsArgs relevantPlayers e)
                (ErrUpdatingEntry (Entry.id e)) w) as [Hn _].
  simpl in Hn.
  destruct (try_catch _ _ w) as [[[]|error] w1]; simpl in *; [|done].
  apply IH.
Qed.

(** Every entry is attempted, in input order, whatever fails. *)
Lemma updateEntryStatistics_calls entries w :
  ∃ outcomes,
    length outcomes = length entries ∧
    calls (run (updateEntryStatistics fails entries relevantPlayers) w)
    = calls w ++ zip (statisticsArgs relevantPlayers <$> entries) outcomes.
Proof.
  unfold updateEntryStatistics. revert w.
  induction entries as [|e entries IH]; intros w; simpl.
  - exists []. by rewrite app_nil_r.
  - unfold run, mbind, Exec_bind.
    pose proof (caught_update_calls fails (statisticsArgs relevantPlayers e)
                  (ErrUpdatingEntry (Entry.id e)) w) as [Hn (ok & Hc)].
    simpl in Hn, Hc. unfold run in Hc.
    destruct (try_catch _ _ w) as [[[]|error] w1]; simpl in *; [|done].
    destruct (IH w1) as (outcomes & Hlen & Hcalls).
    exists (ok :: outcomes). split; [simpl; lia|].
    unfold run in Hcalls. rewrite Hcalls, Hc. simpl.
    by rewrite <-app_assoc.
Qed.

Lemma updateEntryStatistics_footprint entries :
  preserves (λ a, isStatisticsData a ∧ statisticsCall relevantPlayers entries a)
    sameExceptStatistics
    (updateEntryStatistics fails entries relevantPlayers).
Proof.
  apply preserves_for_of; [apply _|]. intros e He.
  apply preserves_try_catch; [apply _| |].
  - apply preserves_update; [apply _| |].
    + split; [done|]. by exists e.
    + intros e0. by apply applyData_statistics.
  - intros error. apply preserves_console_log. apply _.
Qed.

(** An entry whose own write does not fail is persisted, whatever happens
    to the writes of the others. *)
Lemma updateEntryStatistics_persisted entries w i e e0 :
  NoDup (Entry.id <$> entries) →
  entries !! i = Some e →
  entry_table w !! Entry.id e = Some e0 →
  fails (length (calls w) + i)%nat (statisticsArgs relevantPlayers e) = None →
  entry_table (run (updateEntryStatistics fails entries relevantPlayers) w)
    !! Entry.id e
  = Some (applyData (data (statisticsArgs relevantPlayers e)) e0).
Proof.
  revert w i.
  induction entries as [|x entries IH]; intros w i Hnd Hi He0 Hf; [done|].
  rewrite fmap_cons in Hnd. apply NoDup_cons in Hnd as [Hx Hnd].
  change (updateEntryStatistics fails (x :: entries) relevantPlayers)
    with (try_catch
            (prisma_entry_update fails (statisticsArgs relevantPlayers x))
            (λ error, console_log (ErrUpdatingEntry (Entry.id x) error)) ;;
          updateEntryStatistics fails entries relevantPlayers).
  unfold run, mbind, Exec_bind.
  destruct i as [|i]; simpl in Hi.
  - simplify_eq. rewrite Nat.add_0_r in Hf.
    unfold try_catch at 1.
    rewrite (prisma_entry_update_success fails
               (statisticsArgs relevantPlayers e) w e0 He0 Hf).
    match goal with |- entry_table (_ ?w1).2 !! _ = _ => set (w' := w1) end.
    destruct (updateEntryStatistics_footprint entries w') as [_ _ Hu _].
    unfold run in Hu. rewrite Hu.
    + simpl. by rewrite lookup_insert_eq.
    + intros a [_ (e' & He' & ->)] Heq. simpl in Heq.
      apply Hx. rewrite <-Heq. by apply list_elem_of_fmap_2.
  - pose proof (caught_update_calls fails (statisticsArgs relevantPlayers x)
                  (ErrUpdatingEntry (Entry.id x)) w) as [Hn (ok & Hc)].
    assert (preserves (λ a, where_id a = Entry.id x) (λ _ _, True)
              (try_catch
                 (prisma_entry_update fails (statisticsArgs relevantPlayers x))
                 (λ error, console_log (ErrUpdatingEntry (Entry.id x) error))))
      as Hfp.
    { apply preserves_try_catch; [done| |].
      - by apply preserves_update.
      - intros error. by apply preserves_console_log. }
    destruct (Hfp w) as [_ _ Hu _].
    simpl in Hn, Hc. unfold run in Hc, Hu.
    destruct (try_catch _ _ w) as [[[]|error] w1]; simpl in *; [|done].
    apply (IH w1 i); [done|done| |].
    + rewrite Hu; [done|]. intros a -> Heq. apply Hx. rewrite Heq.
      apply list_elem_of_fmap_2. by eapply list_elem_of_lookup_2.
    + rewrite Hc, length_app. simpl.
      by replace (length (calls w) + 1 + i)%nat
        with (length (calls w) + S i)%nat by lia.
Qed.
End aggregation_facts.

(** ** The ranking pass *)

Lemma firstOwnGoalsRule_eq poolEntries w :
  firstOwnGoalsRule poolEntries w
  = (match ownGoalsRule poolEntries with
     | Some useNetGoals => Normal useNetGoals
     | None => Throw TypeError
     end, w).
Proof.
  unfold firstOwnGoalsRule, ownGoalsRule.
  destruct poolEntries as [|first ?]; [done|]. simpl.
  destruct (Entry.pool first) as [pool|]; [|done]. simpl.
  by destruct (Pool.rules pool).
Qed.

Section ranking_facts.
Variable fails : nat → UpdateArgs → option Error.

Lemma updateRanksFrom_footprint i poolEntries :
  preserves (rankCall poolEntries) sameExceptRank
    (updateRanksFrom fails i poolEntries).
Proof.
  revert i. induction poolEntries as [|e rest IH]; intros i; simpl.
  - apply preserves_ret. apply _.
  - apply preserves_bind; [apply _| |].
    + apply preserves_update; [apply _| |].
      * split; [done|]. exists e. split; [left|done].
      * intros e0. by apply applyData_rank.
    + intros _ w. eapply Footprint_weaken; [|apply IH].
      intros a [? (e' & ? & ?)]. split; [done|]. exists e'. split; [by right|done].
Qed.

Lemma prisma_entry_update_normal args w :
  (prisma_entry_update fails args w).1 = Normal () →
  ∃ e, entry_table w !! where_id args = Some e ∧
       fails (length (calls w)) args = None.
Proof.
  unfold prisma_entry_update.
  destruct (entry_table w !! where_id args) as [e|]; [|done].
  destruct (fails _ _); [done|]. eauto.
Qed.

(** A batch that completes has written rank [i + j + 1] to the entry at
    position [j]. *)
Lemma updateRanksFrom_ranks i poolEntries w :
  (updateRanksFrom fails i poolEntries w).1 = Normal () →
  NoDup (Entry.id <$> poolEntries) →
  ∀ j e, poolEntries !! j = Some e →
    Entry.rank <$> entry_table (run (updateRanksFrom fails i poolEntries) w)
                     !! Entry.id e
    = Some (Some (Z.of_nat (i + j) + 1)).
Proof.
  revert i w.
  induction poolEntries as [|x rest IH]; intros i w Hn Hnd j e Hj; [done|].
  rewrite fmap_cons in Hnd. apply NoDup_cons in Hnd as [Hx Hnd].
  simpl in Hn |- *. unfold run, mbind, Exec_bind in Hn |- *.
  destruct (prisma_entry_update fails (rankArgs i x) w)
    as [[[]|error] w1] eqn:Hupd; [|done].
  assert ((prisma_entry_update fails (rankArgs i x) w).1 = Normal ())
    as Hhead by by rewrite Hupd.
  apply prisma_entry_update_normal in Hhead as (e0 & He0 & Hf).
  rewrite (prisma_entry_update_success fails (rankArgs i x) w e0 He0 Hf)
    in Hupd.
  destruct j as [|j]; simpl in Hj.
  - simplify_eq.
    destruct (updateRanksFrom_footprint (S i) rest
      {| entry_table := <[where_id (rankArgs i e) :=
                            applyData (data (rankArgs i e)) e0]> (entry_table w);
         calls := calls w ++ [(rankArgs i e, true)];
         console := console w |}) as [_ _ Hu _].
    unfold run in Hu. rewrite Hu.
    + simpl. rewrite lookup_insert_eq. simpl.
      by rewrite Nat.add_0_r.
    + intros a [_ (e' & He' & Heq)] Heq'. apply Hx. rewrite <-Heq', Heq.
      by apply list_elem_of_fmap_2.
  - specialize (IH (S i) w1 Hn Hnd j e Hj). unfold run in IH.
    rewrite IH. do 3 f_equal. lia.
Qed.

(** A sufficient condition for a batch to complete: its rows exist and
    none of its own writes fails. *)
Lemma updateRanksFrom_succeeds i poolEntries w :
  (∀ e, e ∈ poolEntries → is_Some (entry_table w !! Entry.id e)) →
  (∀ n j e, poolEntries !! j = Some e → fails n (rankArgs (i + j) e) = None) →
  (updateRanksFrom fails i poolEntries w).1 = Normal ().
Proof.
  revert i w.
  induction poolEntries as [|x rest IH]; intros i w Hex Hf; [done|].
  simpl. unfold mbind, Exec_bind.
  destruct (Hex x) as [e0 He0]; [left|].
  rewrite (prisma_entry_update_success fails (rankArgs i x) w e0 He0).
  - apply IH.
    + intros e He. simpl.
      destruct (decide (Entry.id x = Entry.id e)) as [->|Hne].
      * rewrite lookup_insert_eq. eauto.
      * rewrite lookup_insert_ne by done. apply Hex. by right.
    + intros n j e Hj.
      replace (S i + j)%nat with (i + S j)%nat by lia. by apply Hf.
  - specialize (Hf (length (calls w)) 0%nat x eq_refl).
    by rewrite Nat.add_0_r in Hf.
Qed.

Lemma updateEntryRankings_unfold entries :
  updateEntryRankings fails entries
  = for_of (groupByPool entries) (rankPool fails).
Proof.
  unfold updateEntryRankings. apply for_of_ext. by intros [poolId poolEntries].
Qed.
End ranking_facts.

Section ranking_pools.
Variable fails : nat → UpdateArgs → option Error.

Lemma rankPool_footprint group :
  preserves (rankCall group.2) sameExceptRank (rankPool fails group).
Proof.
  apply preserves_try_catch; [apply _| |].
  - unfold rankPoolEntries. apply preserves_bind; [apply _| |].
    + intros w. unfold run. rewrite firstOwnGoalsRule_eq. simpl.
      apply Footprint_refl. apply _.
    + intros useNetGoals w. eapply Footprint_weaken;
        [|apply updateRanksFrom_footprint].
      intros a [? (e & He & ?)]. split; [done|]. exists e. split; [|done].
      by rewrite (sort_perm (compareFn useNetGoals)) in He.
  - intros error. apply preserves_console_log. apply _.
Qed.

Lemma rankPools_footprint (poolsMap : PoolsMap) :
  preserves (rankCall (mjoin poolsMap.*2)) sameExceptRank
    (for_of poolsMap (rankPool fails)).
Proof.
  apply preserves_for_of; [apply _|]. intros group Hin w.
  eapply Footprint_weaken; [|apply rankPool_footprint].
  intros a [? (e & He & ?)]. split; [done|]. exists e. split; [|done].
  apply list_elem_of_join. exists group.2. split; [done|].
  by apply list_elem_of_fmap_2.
Qed.

Lemma updateRanksFrom_console i poolEntries w :
  console (run (updateRanksFrom fails i poolEntries) w) = console w.
Proof.
  revert i w. induction poolEntries as [|x rest IH]; intros i w; [done|].
  simpl. unfold run, mbind, Exec_bind.
  destruct (prisma_entry_update_calls fails (rankArgs i x) w)
    as (ok & _ & Hcon & _).
  unfold run in Hcon.
  destruct (prisma_entry_update fails (rankArgs i x) w) as [[[]|error] w1];
    simpl in *; [|done].
  specialize (IH (S i) w1). unfold run in IH. congruence.
Qed.

(** Either the batch of a pool completes, silently, or exactly one error
    line naming the pool is printed. *)
Lemma rankPool_console poolId poolEntries w :
  let w1 := run (rankPool fails (poolId, poolEntries)) w in
  (console w1 = console w ∧
   ∃ useNetGoals,
     ownGoalsRule poolEntries = Some useNetGoals ∧
     let sorted := sort (compareFn useNetGoals) poolEntries in
     (updateRanksFrom fails 0 sorted w).1 = Normal () ∧
     w1 = run (updateRanksFrom fails 0 sorted) w)
  ∨ (∃ error, console w1 = console w ++ [ErrUpdatingRankings poolId error]).
Proof.
  simpl. unfold run, rankPool, try_catch, rankPoolEntries, mbind, Exec_bind.
  simpl. rewrite firstOwnGoalsRule_eq.
  destruct (ownGoalsRule poolEntries) as [useNetGoals|]; [|right; by eexists].
  pose proof (updateRanksFrom_console 0
                (sort (compareFn useNetGoals) poolEntries) w) as Hcon.
  unfold run in Hcon.
  destruct (updateRanksFrom fails 0 _ w) as [[[]|error] w1] eqn:Hrun;
    simpl in *.
  - left. split; [done|]. exists useNetGoals. by rewrite Hrun.
  - right. exists error. by rewrite Hcon.
Qed.

(** A batch that prints no error has ranked its pool: along the sorted
    order the stored ranks are 1, 2, ... *)
Lemma rankPool_ranks poolId poolEntries w lines :
  NoDup (Entry.id <$> poolEntries) →
  console (run (rankPool fails (poolId, poolEntries)) w) = console w ++ lines →
  (∀ error, ErrUpdatingRankings poolId error ∉ lines) →
  ∃ useNetGoals,
    ownGoalsRule poolEntries = Some useNetGoals ∧
    ∀ j e, sort (compareFn useNetGoals) poolEntries !! j = Some e →
      storedRank (run (rankPool fails (poolId, poolEntries)) w) e
      = Some (Z.of_nat j + 1).
Proof.
  intros Hnd Hlines Hok.
  destruct (rankPool_console poolId poolEntries w)
    as [(_ & u & Hu & Hn & ->)|(error & Herr)].
  - exists u. split; [done|]. intros j e Hj.
    unfold storedRank.
    pose proof (updateRanksFrom_ranks fails 0 _ w Hn) as Hr.
    specialize (Hr ltac:(by rewrite (sort_perm (compareFn u))) j e Hj).
    destruct (entry_table _ !! Entry.id e) as [e'|]; simplify_eq/=.
    by rewrite Hr.
  - rewrite Hlines in Herr. apply app_inv_head in Herr as ->.
    destruct (Hok error). left.
Qed.

(** A batch whose rows exist and whose own writes do not fail completes
    and ranks its pool. *)
Lemma rankPool_succeeds poolId poolEntries w useNetGoals :
  NoDup (Entry.id <$> poolEntries) →
  ownGoalsRule poolEntries = Some useNetGoals →
  (∀ e, e ∈ poolEntries → is_Some (entry_table w !! Entry.id e)) →
  (∀ n j e, sort (compareFn useNetGoals) poolEntries !! j = Some e →
     fails n (rankArgs j e) = None) →
  console (run (rankPool fails (poolId, poolEntries)) w) = console w ∧
  ∀ j e, sort (compareFn useNetGoals) poolEntries !! j = Some e →
    storedRank (run (rankPool fails (poolId, poolEntries)) w) e
    = Some (Z.of_nat j + 1).
Proof.
  intros Hnd Hu Hex Hf.
  assert ((updateRanksFrom fails 0
             (sort (compareFn useNetGoals) poolEntries) w).1 = Normal ())
    as Hn.
  { apply updateRanksFrom_succeeds; [|done].
    intros e He. apply Hex. by rewrite (sort_perm (compareFn useNetGoals)) in He. }
  assert (run (rankPool fails (poolId, poolEntries)) w
          = run (updateRanksFrom fails 0
                   (sort (compareFn useNetGoals) poolEntries)) w) as ->.
  { unfold run, rankPool, try_catch, rankPoolEntries, mbind, Exec_bind.
    simpl. rewrite firstOwnGoalsRule_eq, Hu.
    by destruct (updateRanksFrom fails 0 _ w) as [[[]|error] w1]. }
  split; [apply updateRanksFrom_console|].
  intros j e Hj. unfold storedRank.
  pose proof (updateRanksFrom_ranks fails 0 _ w Hn) as Hr.
  specialize (Hr ltac:(by rewrite (sort_perm (compareFn useNetGoals))) j e Hj).
  destruct (entry_table _ !! Entry.id e) as [e'|]; simplify_eq/=.
  by rewrite Hr.
Qed.

Lemma rankPools_split (gs1 gs2 : PoolsMap) group w :
  run (for_of (gs1 ++ group :: gs2) (rankPool fails)) w
  = run (for_of gs2 (rankPool fails))
      (run (rankPool fails group) (run (for_of gs1 (rankPool fails)) w)).
Proof.
  rewrite for_of_app by (intros; apply try_catch_log_normal).
  generalize (run (for_of gs1 (rankPool fails)) w). intros w0.
  simpl. unfold run, mbind, Exec_bind.
  pose proof (try_catch_log_normal (rankPoolEntries fails group.2)
                (ErrUpdatingRankings group.1) w0) as Hn.
  fold (rankPool fails group) in Hn.
  by destruct (rankPool fails group w0) as [[[]|error] w1].
Qed.

(** The batch of one pool within the whole pass: the pools before it and
    after it leave its rows alone. *)
Lemma rankPools_context (gs1 gs2 : PoolsMap) poolId poolEntries w :
  NoDup (Entry.id <$> mjoin (gs1 ++ (poolId, poolEntries) :: gs2).*2) →
  let w0 := run (for_of gs1 (rankPool fails)) w in
  let w1 := run (rankPool fails (poolId, poolEntries)) w0 in
  let w' := run (for_of (gs1 ++ (poolId, poolEntries) :: gs2) (rankPool fails)) w in
  NoDup (Entry.id <$> poolEntries) ∧
  (∀ e, e ∈ poolEntries →
     entry_table w0 !! Entry.id e = entry_table w !! Entry.id e) ∧
  (∀ e, e ∈ poolEntries →
     entry_table w' !! Entry.id e = entry_table w1 !! Entry.id e) ∧
  ∃ l0 l2, console w0 = console w ++ l0 ∧ console w' = console w1 ++ l2.
Proof.
  intros Hnd. simpl. rewrite rankPools_split.
  rewrite fmap_app, fmap_cons, join_app in Hnd. simpl in Hnd.
  rewrite !fmap_app in Hnd.
  apply NoDup_app in Hnd as (_ & Hdisj1 & Hnd).
  apply NoDup_app in Hnd as (Hg & Hdisj2 & _).
  set (w0 := run (for_of gs1 (rankPool fails)) w).
  set (w1 := run (rankPool fails (poolId, poolEntries)) w0).
  destruct (rankPools_footprint gs1 w) as [_ (l0 & Hl0) Hu0 _].
  destruct (rankPools_footprint gs2 w1) as [_ (l2 & Hl2) Hu2 _].
  split_and!; [done| | |by exists l0, l2].
  - intros e He. apply Hu0. intros a [_ (e' & He' & Heq)] Heq'.
    apply (Hdisj1 (Entry.id e')); [by apply list_elem_of_fmap_2|].
    rewrite <-Heq, Heq'. apply elem_of_app. left.
    by apply list_elem_of_fmap_2.
  - intros e He. apply Hu2. intros a [_ (e' & He' & Heq)] Heq'.
    apply (Hdisj2 (Entry.id e)); [by apply list_elem_of_fmap_2|].
    rewrite <-Heq', Heq. by apply list_elem_of_fmap_2.
Qed.

(** The whole pass: every pool whose batch printed no error is ranked. *)
Lemma rankPools_ranks (poolsMap : PoolsMap) w lines poolId poolEntries :
  NoDup (Entry.id <$> mjoin poolsMap.*2) →
  console (run (for_of poolsMap (rankPool fails)) w) = console w ++ lines →
  (poolId, poolEntries) ∈ poolsMap →
  (∀ error, ErrUpdatingRankings poolId error ∉ lines) →
  ∃ useNetGoals,
    ownGoalsRule poolEntries = Some useNetGoals ∧
    ∀ j e, sort (compareFn useNetGoals) poolEntries !! j = Some e →
      storedRank (run (for_of poolsMap (rankPool fails)) w) e
      = Some (Z.of_nat j + 1).
Proof.
  intros Hnd Hlines Hin Hok.
  apply list_elem_of_split in Hin as (gs1 & gs2 & ->).
  destruct (rankPools_context gs1 gs2 poolId poolEntries w Hnd)
    as (Hg & _ & Hafter & l0 & l2 & Hl0 & Hl2).
  set (w0 := run (for_of gs1 (rankPool fails)) w) in *.
  destruct (rankPool_footprint (poolId, poolEntries) w0) as [_ (l1 & Hl1) _ _].
  rewrite Hl1, Hl0, <-!app_assoc in Hl2. rewrite Hlines in Hl2.
  apply app_inv_head in Hl2 as ->.
  destruct (rankPool_ranks poolId poolEntries w0 l1 Hg Hl1)
    as (u & Hu & Hr).
  { intros error Herr. apply (Hok error). rewrite !elem_of_app. auto. }
  exists u. split; [done|]. intros j e Hj.
  rewrite <-(Hr j e Hj). unfold storedRank. rewrite Hafter; [done|].
  rewrite <-(sort_perm (compareFn u)). by eapply list_elem_of_lookup_2.
Qed.

(** Isolation: a pool whose rows exist and whose own writes do not fail
    is ranked, whatever happens to the batches of the other pools. *)
Lemma rankPools_isolated (poolsMap : PoolsMap) w poolId poolEntries useNetGoals :
  NoDup (Entry.id <$> mjoin poolsMap.*2) →
  (poolId, poolEntries) ∈ poolsMap →
  ownGoalsRule poolEntries = Some useNetGoals →
  (∀ e, e ∈ poolEntries → is_Some (entry_table w !! Entry.id e)) →
  (∀ n j e, sort (compareFn useNetGoals) poolEntries !! j = Some e →
     fails n (rankArgs j e) = None) →
  ∀ j e, sort (compareFn useNetGoals) poolEntries !! j = Some e →
    storedRank (run (for_of poolsMap (rankPool fails)) w) e
    = Some (Z.of_nat j + 1).
Proof.
  intros Hnd Hin Hu Hex Hf j e Hj.
  apply list_elem_of_split in Hin as (gs1 & gs2 & ->).
  destruct (rankPools_context gs1 gs2 poolId poolEntries w Hnd)
    as (Hg & Hbefore & Hafter & _).
  set (w0 := run (for_of gs1 (rankPool fails)) w) in *.
  destruct (rankPool_succeeds poolId poolEntries w0 useNetGoals Hg Hu)
    as [_ Hr]; [|done|].
  { intros e' He'. rewrite Hbefore by done. by apply Hex. }
  rewrite <-(Hr j e Hj). unfold storedRank. rewrite Hafter; [done|].
  rewrite <-(sort_perm (compareFn useNetGoals)).
  by eapply list_elem_of_lookup_2.
Qed.
End ranking_pools.

(** ** The accumulation over the footballers *)

Lemma fold_addFootballer_allScored relevantPlayers footballers acc :
  allScored (fold_left (addFootballer relevantPlayers) footballers acc)
  = allScored acc && forallb (scoredIfMatched relevantPlayers) footballers.
Proof.
  revert acc. induction footballers as [|f fs IH]; intros acc; simpl.
  - by rewrite andb_true_r.
  - rewrite IH. unfold addFootballer, scoredIfMatched.
    destruct (findPlayer relevantPlayers f) as [p|]; simpl; [|done].
    destruct (Player.goals_scored p =? 0); simpl; [|done].
    by rewrite andb_false_r.
Qed.



(** The computation sees the statistics only through [findPlayer]. *)
Lemma computeStatistics_ext relevantPlayers relevantPlayers' footballers :
  (∀ f, findPlayer relevantPlayers f = findPlayer relevantPlayers' f) →
  computeStatistics relevantPlayers footballers
  = computeStatistics relevantPlayers' footballers.
Proof.
  intros Hfind. unfold computeStatistics, sumFootballers.
  assert (∀ acc, fold_left (addFootballer relevantPlayers) footballers acc
                 = fold_left (addFootballer relevantPlayers') footballers acc)
    as ->; [|done].
  induction footballers as [|f fs IH]; intros acc; [done|].
  simpl. rewrite IH. unfold addFootballer. by rewrite Hfind.
Qed.

Lemma find_later_duplicate {A} (P : A → bool) l1 p l2 q l3 :
  (P q = true → P p = true) →
  List.find P (l1 ++ p :: l2 ++ q :: l3) = List.find P (l1 ++ p :: l2 ++ l3).
Proof.
  intros Hqp. induction l1 as [|x l1 IH]; simpl.
  - destruct (P p) eqn:Hp; [done|].
    induction l2 as [|y l2 IH2]; simpl.
    + destruct (P q); [|done]. by specialize (Hqp eq_refl).
    + destruct (P y); [done|]. apply IH2.
  - by destruct (P x).
Qed.

Lemma newCalls_app w w' new : calls w' = calls w ++ new → newCalls w w' = new.
Proof. intros Hc. unfold newCalls. by rewrite Hc, drop_app_length. Qed.

Lemma updateEntryStatistics_newCalls fails relevantPlayers entries w :
  (newCalls w (run (updateEntryStatistics fails entries relevantPlayers) w)).*1
  = statisticsArgs relevantPlayers <$> entries.
Proof.
  destruct (updateEntryStatistics_calls fails relevantPlayers entries w)
    as (outcomes & Hlen & Hcalls).
  rewrite (newCalls_app _ _ _ Hcalls). apply fst_zip.
  rewrite length_fmap. lia.
Qed.

(** * The claims *)








(** C9: a PlayerStat that follows another one with the same id in the list
    of relevant players contributes nothing: removing it leaves the computed
    statistics unchanged, since each footballer uses the first match only. *)
Theorem later_duplicate_ignored l1 p l2 q l3 footballers :
  Player.id q = Player.id p →
  computeStatistics (l1 ++ p :: l2 ++ q :: l3) footballers
  = computeStatistics (l1 ++ p :: l2 ++ l3) footballers.
Proof.
  intros Hid. apply computeStatistics_ext. intros f.
  unfold findPlayer. apply find_later_duplicate. by rewrite Hid.
Qed.


(** ** Running the aggregation again *)

Lemma samePicks_statisticsArgs relevantPlayers entries entries' :
  Forall2 samePicks entries entries' →
  statisticsArgs relevantPlayers <$> entries
  = statisticsArgs relevantPlayers <$> entries'.
Proof.
  induction 1 as [|e e' es es' [Hid Hfs] _ IH]; [done|].
  rewrite !fmap_cons, IH. unfold statisticsArgs. by rewrite Hid, Hfs.
Qed.

Lemma applyData_statistics_agree s e e' :
  sameExceptStatistics e e' →
  applyData (StatisticsData s) e = applyData (StatisticsData s) e'.
Proof. intros []. destruct e, e'; simpl in *. by subst. Qed.

(** Two stores that agree except on statistics fields of rows the pass is
    about to write end up equal. *)
Lemma updateEntryStatistics_agree fails fails' relevantPlayers entries w w' :
  neverFails fails → neverFails fails' →
  (∀ k, option_Forall2 sameExceptStatistics
          (entry_table w !! k) (entry_table w' !! k)) →
  (∀ k, k ∉ Entry.id <$> entries → entry_table w !! k = entry_table w' !! k) →
  entry_table (run (updateEntryStatistics fails entries relevantPlayers) w)
  = entry_table (run (updateEntryStatistics fails' entries relevantPlayers) w').
Proof.
  intros Hf Hf'. revert w w'.
  induction entries as [|e entries IH]; intros w w' Hrel Hout.
  - apply map_eq. intros k. apply Hout. inversion 1.
  - unfold updateEntryStatistics. simpl. fold (updateEntryStatistics fails entries relevantPlayers).
    fold (updateEntryStatistics fails' entries relevantPlayers).
    unfold run, mbind, Exec_bind, try_catch.
    set (a := statisticsArgs relevantPlayers e).
    pose proof (Hrel (Entry.id e)) as Hrow.
    destruct (entry_table w !! Entry.id e) as [r|] eqn:H,
             (entry_table w' !! Entry.id e) as [r'|] eqn:H0;
      inversion Hrow as [? ? Hrr'|]; subst.
    + assert (applyData (data a) r = applyData (data a) r') as Heq
        by exact (applyData_statistics_agree _ r r' Hrr').
      rewrite (prisma_entry_update_success fails a w r H (Hf _ _)).
      rewrite (prisma_entry_update_success fails' a w' r' H0 (Hf' _ _)).
      rewrite Heq. change (where_id a) with (Entry.id e).
      apply IH; cbn [entry_table].
      * intros k. destruct (decide (Entry.id e = k)) as [<-|Hne].
        -- rewrite !lookup_insert_eq. by constructor.
        -- rewrite !lookup_insert_ne by done. apply Hrel.
      * intros k Hk. destruct (decide (Entry.id e = k)) as [<-|Hne].
        -- by rewrite !lookup_insert_eq.
        -- rewrite !lookup_insert_ne by done. apply Hout.
           rewrite fmap_cons. by intros [?|?]%elem_of_cons.
    + unfold prisma_entry_update. change (where_id a) with (Entry.id e).
      rewrite H, H0. cbn [fst snd].
      apply IH; cbn [entry_table]; [done|].
      intros k Hk. destruct (decide (Entry.id e = k)) as [<-|Hne].
      * by rewrite H, H0.
      * apply Hout. rewrite fmap_cons. by intros [?|?]%elem_of_cons.
Qed.

(** C7: running the aggregation pass again, on entries with the same
    identities and picks (whatever their stored statistics) and the same
    player statistics, issues the same updates with the same goals,
    own_goals, net_goals, expected_goals, all_scored and status; when no
    write fails, the second run leaves the store as the first run left
    it. *)
Theorem aggregation_idempotent fails1 fails2 relevantPlayers entries entries' w :
  Forall2 samePicks entries entries' →
  let w1 := run (updateEntryStatistics fails1 entries relevantPlayers) w in
  let w2 := run (updateEntryStatistics fails2 entries' relevantPlayers) w1 in
  (newCalls w1 w2).*1 = (newCalls w w1).*1
  ∧ (neverFails fails1 → neverFails fails2 →
     entry_table w2 = entry_table w1).
Proof.
  intros Hsame. simpl. split.
  - rewrite !updateEntryStatistics_newCalls.
    symmetry. by apply samePicks_statisticsArgs.
  - intros Hf1 Hf2.
    set (w1 := run (updateEntryStatistics fails1 entries relevantPlayers) w).
    assert (Entry.id <$> entries' = Entry.id <$> entries) as Hids.
    { clear -Hsame. induction Hsame as [|e e' es es' [Hid _] _ IH]; [done|].
      by rewrite !fmap_cons, IH, Hid. }
    destruct (updateEntryStatistics_footprint fails1 relevantPlayers entries w)
      as [_ _ Hu Hr]. fold w1 in Hu, Hr.
    unfold w1 at 2.
    assert (run (updateEntryStatistics fails1 entries relevantPlayers) w
            = run (updateEntryStatistics fails1 entries' relevantPlayers) w)
      as ->.
    { unfold run, updateEntryStatistics.
      assert (∀ es es' w, Forall2 samePicks es es' →
        for_of es (λ entry, try_catch
          (prisma_entry_update fails1 (statisticsArgs relevantPlayers entry))
          (λ error, console_log (ErrUpdatingEntry (Entry.id entry) error))) w
        = for_of es' (λ entry, try_catch
          (prisma_entry_update fails1 (statisticsArgs relevantPlayers entry))
          (λ error, console_log (ErrUpdatingEntry (Entry.id entry) error))) w)
        as Hgen; [|by rewrite (Hgen _ _ _ Hsame)].
      clear. intros es es' w Hs. revert w.
      induction Hs as [|e e' es es' [Hid Hfs] _ IH]; intros w; [done|].
      simpl. unfold mbind, Exec_bind. unfold statisticsArgs at 1 3.
      rewrite Hid, Hfs. fold (statisticsArgs relevantPlayers e').
      destruct (try_catch _ _ w) as [[[]|error] w1]; [|done]. apply IH. }
    apply updateEntryStatistics_agree; [done|done| |].
    + intros k. specialize (Hr k).
      destruct Hr as [r r' [] |]; constructor. split; congruence.
    + intros k Hk. apply Hu. intros a [_ (e & He & ->)] Heq. simpl in Heq.
      apply Hk. rewrite Hids, <-Heq. by apply list_elem_of_fmap_2.
Qed.

Lemma for_of_normal {X} (xs : list X) (body : X → Exec unit) w :
  (∀ x w, (body x w).1 = Normal ()) → (for_of xs body w).1 = Normal ().
Proof.
  intros Hn. revert w. induction xs as [|x xs IH]; intros w; [done|].
  simpl. unfold mbind, Exec_bind. specialize (Hn x w).
  destruct (body x w) as [[[]|error] w1]; [|done]. apply IH.
Qed.

Lemma updateEntryRankings_normal fails entries w :
  (updateEntryRankings fails entries w).1 = Normal ().
Proof.
  rewrite updateEntryRankings_unfold. apply for_of_normal.
  intros group w'. apply try_catch_log_normal.
Qed.

(** The updates a batch issues are an initial part of the rank assignment
    read off the sorted array. *)
Lemma updateRanksFrom_calls fails i poolEntries w :
  ∃ new n,
    calls (run (updateRanksFrom fails i poolEntries) w) = calls w ++ new ∧
    new.*1 = take n (imap (λ j, rankArgs (i + j)) poolEntries).
Proof.
  revert i w. induction poolEntries as [|x rest IH]; intros i w.
  - exists [], 0%nat. by rewrite app_nil_r.
  - simpl. unfold run, mbind, Exec_bind.
    destruct (prisma_entry_update_calls fails (rankArgs i x) w)
      as (ok & Hc & _ & _).
    unfold run in Hc.
    destruct (prisma_entry_update fails (rankArgs i x) w) as [[[]|error] w1];
      simpl in *.
    + destruct (IH (S i) w1) as (new & n & Hnew & Hn). unfold run in Hnew.
      exists ((rankArgs i x, ok) :: new), (S n). split.
      * rewrite Hnew, Hc, <-app_assoc. done.
      * rewrite fmap_cons, Hn, Nat.add_0_r. cbn [fst take]. do 2 f_equal.
        apply imap_ext. intros j e _. simpl. f_equal. lia.
    + exists [(rankArgs i x, ok)], 1%nat. split; [done|].
      simpl. by rewrite Nat.add_0_r, take_0.
Qed.

(** C6: the aggregation pass attempts the update of every entry and
    completes; an entry whose own write does not fail is persisted whatever
    happens to the writes of the other entries.  The ranking pass completes;
    a pool whose rule can be read, whose rows exist and whose own writes do
    not fail is ranked, whatever happens in the batches of the other
    pools. *)
Theorem failure_isolation fails relevantPlayers entries w :
  NoDup (Entry.id <$> entries) →
  let w1 := run (updateEntryStatistics fails entries relevantPlayers) w in
  let w2 := run (updateEntryRankings fails entries) w in
  ((updateEntryStatistics fails entries relevantPlayers w).1 = Normal () ∧
   (newCalls w w1).*1 = statisticsArgs relevantPlayers <$> entries ∧
   ∀ i e e0,
     entries !! i = Some e →
     entry_table w !! Entry.id e = Some e0 →
     fails (length (calls w) + i)%nat (statisticsArgs relevantPlayers e) = None →
     entry_table w1 !! Entry.id e
     = Some (applyData (data (statisticsArgs relevantPlayers e)) e0))
  ∧ ((updateEntryRankings fails entries w).1 = Normal () ∧
     ∀ poolId poolEntries useNetGoals,
       (poolId, poolEntries) ∈ groupByPool entries →
       ownGoalsRule poolEntries = Some useNetGoals →
       (∀ e, e ∈ poolEntries → is_Some (entry_table w !! Entry.id e)) →
       (∀ n j e, sort (compareFn useNetGoals) poolEntries !! j = Some e →
          fails n (rankArgs j e) = None) →
       ∀ j e, sort (compareFn useNetGoals) poolEntries !! j = Some e →
         storedRank w2 e = Some (Z.of_nat j + 1)).
Proof.
  intros Hnd. simpl. split; split_and!.
  - apply updateEntryStatistics_normal.
  - apply updateEntryStatistics_newCalls.
  - intros i e e0. by apply updateEntryStatistics_persisted.
  - apply updateEntryRankings_normal.
  - intros poolId poolEntries useNetGoals Hin Hu Hex Hf j e Hj.
    rewrite updateEntryRankings_unfold.
    eapply rankPools_isolated; try done.
    apply Grouped_NoDup_ids with (entries := entries); [|done].
    apply groupByPool_Grouped.
Qed.

Lemma groupByPool_lookup entries poolId :
  filter (inPool poolId) entries ≠ [] →
  (poolId, filter (inPool poolId) entries) ∈ groupByPool entries.
Proof.
  intros Hne. destruct (groupByPool_Grouped entries) as [_ Hvals Hcompl].
  destruct (filter (inPool poolId) entries) as [|e l] eqn:Hf; [done|].
  assert (e ∈ filter (inPool poolId) entries) as He by (rewrite Hf; left).
  apply list_elem_of_filter in He as [Hp He].
  specialize (Hcompl e poolId He Hp).
  apply list_elem_of_fmap in Hcompl as ([p g] & -> & Hin). simpl in *.
  destruct (Hvals _ _ Hin) as [Hg _]. by rewrite <-Hf, <-Hg.
Qed.

(** C3: after the ranking pass, for every pool with entries whose batch
    printed no error, reading the stored ranks along a descending
    arrangement of the pool's entries (by net_goals when the rule own_goals
    read from the pool is true, by goals otherwise) gives 1, 2, ..., N; an
    entry without pool is addressed by no update and its row is
    untouched. *)
Theorem ranking_dense_descending fails entries w lines :
  NoDup (Entry.id <$> entries) →
  let w' := run (updateEntryRankings fails entries) w in
  console w' = console w ++ lines →
  (∀ poolId,
     let poolEntries := filter (inPool poolId) entries in
     poolEntries ≠ [] →
     (∀ error, ErrUpdatingRankings poolId error ∉ lines) →
     ∃ useNetGoals sorted,
       ownGoalsRule poolEntries = Some useNetGoals ∧
       sorted ≡ₚ poolEntries ∧
       StronglySorted (descending (rankingKey useNetGoals)) sorted ∧
       storedRank w' <$> sorted
       = (λ r, Some (Z.of_nat r)) <$> seq 1 (length poolEntries))
  ∧ (∀ e, e ∈ entries → Entry.pool e = None →
       entry_table w' !! Entry.id e = entry_table w !! Entry.id e ∧
       Forall (λ c, where_id c.1 ≠ Entry.id e) (newCalls w w')).
Proof.
  intros Hnd. simpl. intros Hlines.
  pose proof (groupByPool_Grouped entries) as Hgrouped.
  rewrite updateEntryRankings_unfold in *. split.
  - intros poolId Hne Hok.
    apply groupByPool_lookup in Hne.
    destruct (rankPools_ranks fails (groupByPool entries) w lines poolId _
                (Grouped_NoDup_ids _ _ Hgrouped Hnd) Hlines Hne Hok)
      as (u & Hu & Hr).
    exists u, (sort (compareFn u) (filter (inPool poolId) entries)).
    split_and!; [done| | |].
    + apply sort_perm.
    + apply sort_descending. apply compareFn_rankingKey.
    + rewrite <-(sort_length (compareFn u)).
      apply list_eq. intros j. rewrite !list_lookup_fmap.
      destruct (sort _ _ !! j) as [e|] eqn:Hj; simpl.
      * rewrite (Hr j e Hj).
        rewrite lookup_seq_lt by (by eapply lookup_lt_Some).
        simpl. do 2 f_equal. lia.
      * apply lookup_ge_None in Hj. by rewrite lookup_seq_ge.
  - intros e He Hpool.
    destruct (rankPools_footprint fails (groupByPool entries) w)
      as [(new & Hc & Hd) _ Hu _].
    assert (∀ a, rankCall (mjoin (groupByPool entries).*2) a →
                 where_id a ≠ Entry.id e) as Hfresh.
    { intros a [_ (e' & He' & Heq)] Heq'.
      destruct (Grouped_ids_in_pool _ _ _ Hgrouped He') as [Hin [pool Hp]].
      assert (e' = e) as -> by (eapply NoDup_id_inj; [done..|congruence]).
      congruence. }
    split; [by apply Hu|].
    rewrite (newCalls_app _ _ _ Hc).
    eapply Forall_impl; [exact Hd|]. intros c. apply Hfresh.
Qed.

(** Filtering keeps the order of the elements it keeps. *)
Lemma filter_lookup_order {A} (P : A → Prop) `{∀ x, Decision (P x)}
    (l : list A) i j a b :
  (i < j)%nat → l !! i = Some a → l !! j = Some b → P a → P b →
  ∃ i' j', (i' < j')%nat ∧ filter P l !! i' = Some a ∧ filter P l !! j' = Some b.
Proof.
  intros Hij Ha Hb HPa HPb.
  exists (length (filter P (take i l))), (length (filter P (take j l))).
  assert (take j l = take i l ++ a :: take (j - S i) (drop (S i) l)) as Htake.
  { rewrite <-(take_drop_middle l i a Ha) at 1.
    rewrite take_app_ge by (rewrite length_take; lia).
    rewrite length_take_le by (apply lookup_lt_Some in Ha; lia).
    replace (j - i)%nat with (S (j - S i)) by lia. done. }
  split_and!.
  - rewrite Htake, filter_app, filter_cons_True, length_app by done.
    simpl. lia.
  - rewrite <-(take_drop_middle l i a Ha) at 2.
    rewrite filter_app, filter_cons_True by done.
    by apply list_lookup_middle.
  - rewrite <-(take_drop_middle l j b Hb) at 2.
    rewrite filter_app, filter_cons_True by done.
    by apply list_lookup_middle.
Qed.

(** C10: after the ranking pass, in every pool with entries whose batch
    printed no error, the rank of an entry is one more than the number of
    entries of the pool with a larger key plus the number of entries of the
    pool with the same key that precede it in the input list: a function of
    the input list and the rule alone.  So of two entries of the pool with
    equal keys the one that comes first in the input gets the smaller rank,
    and every entry of the pool ranked between them has their key. *)
Theorem ties_keep_input_order fails entries w lines :
  NoDup (Entry.id <$> entries) →
  let w' := run (updateEntryRankings fails entries) w in
  console w' = console w ++ lines →
  ∀ poolId,
    let poolEntries := filter (inPool poolId) entries in
    poolEntries ≠ [] →
    (∀ error, ErrUpdatingRankings poolId error ∉ lines) →
    ∃ useNetGoals,
      ownGoalsRule poolEntries = Some useNetGoals ∧
      let key := rankingKey useNetGoals in
      (∀ i e, poolEntries !! i = Some e →
         storedRank w' e
         = Some (Z.of_nat (stablePosition key poolEntries i e) + 1))
      ∧ (∀ i j a b,
           (i < j)%nat → entries !! i = Some a → entries !! j = Some b →
           inPool poolId a → inPool poolId b → key a = key b →
           ∃ ra rb,
             storedRank w' a = Some ra ∧ storedRank w' b = Some rb ∧
             ra < rb ∧
             ∀ c rc, c ∈ poolEntries → storedRank w' c = Some rc →
                     ra ≤ rc ≤ rb → key c = key a).
Proof.
  intros Hnd. cbv zeta. intros Hlines poolId Hne Hok.
  pose proof (groupByPool_Grouped entries) as Hgrouped.
  rewrite updateEntryRankings_unfold in *.
  apply groupByPool_lookup in Hne.
  destruct (rankPools_ranks fails (groupByPool entries) w lines poolId _
              (Grouped_NoDup_ids _ _ Hgrouped Hnd) Hlines Hne Hok)
    as (u & Hu & Hr).
  set (poolEntries := filter (inPool poolId) entries) in *.
  set (w' := run (for_of (groupByPool entries) (rankPool fails)) w) in *.
  pose proof (sort_position (compareFn u) (rankingKey u)
                (compareFn_rankingKey u) poolEntries) as Hpos.
  assert (∀ i e, poolEntries !! i = Some e →
            storedRank w' e
            = Some (Z.of_nat (stablePosition (rankingKey u) poolEntries i e)
                    + 1)) as Hrank.
  { intros i e Hi. apply Hr. by apply Hpos. }
  exists u. split_and!; [done|exact Hrank|].
  intros i j a b Hij Ha Hb Hpa Hpb Hab.
  destruct (filter_lookup_order (inPool poolId) entries i j a b)
    as (i' & j' & Hij' & Ha' & Hb'); [done..|].
  fold poolEntries in Ha', Hb'.
  eexists _, _. split_and!; [by apply Hrank|by apply Hrank| |].
  - pose proof (stablePosition_tie (rankingKey u) poolEntries i' j' a b
                  Hij' Ha' Hb' Hab). lia.
  - intros c rc Hc Hrc Hbetween.
    apply list_elem_of_lookup_1 in Hc as [n Hn].
    rewrite (Hrank n c Hn) in Hrc. injection Hrc as <-.
    apply (descending_contiguous (rankingKey u)
             (sort (compareFn u) poolEntries)
             (stablePosition (rankingKey u) poolEntries i' a)
             (stablePosition (rankingKey u) poolEntries n c)
             (stablePosition (rankingKey u) poolEntries j' b) a c b);
      [apply sort_descending, compareFn_rankingKey|lia|by apply Hpos..|done].
Qed.

(** ** The ranking pass does not see what the aggregation computed *)

Lemma sameExceptStatistics_sym e e' :
  sameExceptStatistics e e' → sameExceptStatistics e' e.
Proof. intros []. split; congruence. Qed.

Section simulation.
Context (Rw : relation World).

Lemma simulates_bind {A B} (m m' : Exec A) (f f' : A → Exec B) :
  simulates Rw m m' → (∀ a, simulates Rw (f a) (f' a)) →
  simulates Rw (m ≫= f) (m' ≫= f').
Proof.
  intros Hm Hf w w' Hw. destruct (Hm w w' Hw) as [Hc Hr].
  unfold run, mbind, Exec_bind in *.
  destruct (m w) as [[a|error] w1], (m' w') as [[a'|error'] w1'];
    simplify_eq/=; [|done].
  by apply Hf.
Qed.

Lemma simulates_try_catch {A} (m m' : Exec A) (h h' : Error → Exec A) :
  simulates Rw m m' → (∀ error, simulates Rw (h error) (h' error)) →
  simulates Rw (try_catch m h) (try_catch m' h').
Proof.
  intros Hm Hh w w' Hw. destruct (Hm w w' Hw) as [Hc Hr].
  unfold run, try_catch in *.
  destruct (m w) as [[a|error] w1], (m' w') as [[a'|error'] w1'];
    simplify_eq/=; [done|].
  by apply Hh.
Qed.

Lemma simulates_for_of {X} (xs : list X) (body body' : X → Exec unit) :
  (∀ x, simulates Rw (body x) (body' x)) →
  simulates Rw (for_of xs body) (for_of xs body').
Proof.
  intros Hbody. induction xs as [|x xs IH]; simpl.
  - by intros w w' Hw.
  - apply simulates_bind; [apply Hbody|]. by intros _.
Qed.
End simulation.

Section ranking_simulation.
Variable fails : nat → UpdateArgs → option Error.

Lemma simulates_console_log line :
  simulates sameUpToStatistics (console_log line) (console_log line).
Proof. by intros w w' Hw. Qed.

(** A rank update behaves alike in two such worlds: it consults only the
    number of earlier calls and the existence of the row. *)
Lemma simulates_rank_update args :
  isRankData args →
  simulates sameUpToStatistics
    (prisma_entry_update fails args) (prisma_entry_update fails args).
Proof.
  intros Hrank w w' [Hlen Hrows].
  unfold run, prisma_entry_update. rewrite <-Hlen.
  pose proof (Hrows (where_id args)) as Hrow.
  destruct (entry_table w !! where_id args) as [r|] eqn:Hr,
           (entry_table w' !! where_id args) as [r'|] eqn:Hr';
    inversion Hrow as [? ? Hrr'|]; subst.
  - destruct (fails (length (calls w)) args) as [error|]; simpl.
    + split; [done|]. split; simpl; [by rewrite !length_app, Hlen|done].
    + split; [done|]. split; simpl; [by rewrite !length_app, Hlen|].
      intros k. destruct (decide (where_id args = k)) as [<-|Hne].
      * rewrite !lookup_insert_eq. constructor.
        unfold isRankData in Hrank. destruct (data args); [done|].
        destruct Hrr'. by split.
      * rewrite !lookup_insert_ne by done. apply Hrows.
  - simpl. split; [done|]. split; simpl; [by rewrite !length_app, Hlen|done].
Qed.

Lemma simulates_updateRanksFrom i poolEntries :
  simulates sameUpToStatistics
    (updateRanksFrom fails i poolEntries) (updateRanksFrom fails i poolEntries).
Proof.
  revert i. induction poolEntries as [|e rest IH]; intros i; simpl.
  - by intros w w' Hw.
  - apply simulates_bind; [by apply simulates_rank_update|]. intros _. apply IH.
Qed.

Lemma simulates_updateEntryRankings entries :
  simulates sameUpToStatistics
    (updateEntryRankings fails entries) (updateEntryRankings fails entries).
Proof.
  unfold updateEntryRankings. apply simulates_for_of.
  intros [poolId poolEntries]. apply simulates_try_catch.
  - unfold rankPoolEntries. apply simulates_bind.
    + intros w w' Hw. unfold run. by rewrite !firstOwnGoalsRule_eq.
    + intros useNetGoals. apply simulates_updateRanksFrom.
  - intros error. apply simulates_console_log.
Qed.

(** Whatever the statistics, the aggregation leaves such worlds. *)
Lemma updateEntryStatistics_sameUpToStatistics entries players players' w :
  sameUpToStatistics
    (run (updateEntryStatistics fails entries players) w)
    (run (updateEntryStatistics fails entries players') w).
Proof.
  split.
  - destruct (updateEntryStatistics_calls fails players entries w)
      as (o & Ho & ->).
    destruct (updateEntryStatistics_calls fails players' entries w)
      as (o' & Ho' & ->).
    rewrite !length_app, !length_zip, !length_fmap. lia.
  - intros k.
    destruct (updateEntryStatistics_footprint fails players entries w)
      as [_ _ _ Hr].
    destruct (updateEntryStatistics_footprint fails players' entries w)
      as [_ _ _ Hr'].
    specialize (Hr k). specialize (Hr' k).
    destruct Hr as [r r1 H1|]; inversion Hr' as [? r2 H2|]; subst;
      constructor.
    etrans; [apply sameExceptStatistics_sym, H1|exact H2].
Qed.

(** The ranks [runGame] stores do not depend on the statistics feed of the
    run: they are computed from the entries as loaded. *)
Lemma runGame_ranks_ignore_feed footballers feed feed' error w k :
  let reads := mkReads footballers (Normal feed) error in
  let reads' := mkReads footballers (Normal feed') error in
  Entry.rank <$> entry_table (run (runGame fails reads) w) !! k
  = Entry.rank <$> entry_table (run (runGame fails reads') w) !! k.
Proof.
  simpl.
  assert (∀ w1 w2, sameUpToStatistics w1 w2 →
            Entry.rank <$> entry_table w1 !! k
            = Entry.rank <$> entry_table w2 !! k) as Hrank.
  { intros w1 w2 [_ Hrows]. specialize (Hrows k).
    destruct Hrows as [r r' []|]; simpl; congruence. }
  unfold run, runGame, try_catch, mbind, Exec_bind.
  unfold console_log at 1 6. unfold lift. simpl.
  destruct footballers as [fs|err]; simpl; [|by destruct err].
  unfold fetchEPLPlayerData, try_catch, lift. simpl.
  unfold fetchAllEntries. simpl.
  destruct error as [err|]; simpl; [by destruct err|].
  set (entries := (map_to_list (entry_table w)).*2).
  destruct (length entries =? 0)%nat; [done|].
  set (w0 := {| entry_table := entry_table w; calls := calls w;
                console := console w ++ [LogRunningGame] |}).
  set (rp := filter _ feed). set (rp' := filter _ feed').
  pose proof (updateEntryStatistics_normal fails rp entries w0) as Hn.
  pose proof (updateEntryStatistics_normal fails rp' entries w0) as Hn'.
  pose proof (updateEntryStatistics_sameUpToStatistics entries rp rp' w0) as Hs.
  unfold run in Hs.
  destruct (updateEntryStatistics fails entries rp w0) as [[[]|?] w1];
    [|done].
  destruct (updateEntryStatistics fails entries rp' w0) as [[[]|?] w1'];
    [|done].
  destruct (simulates_updateEntryRankings entries w1 w1' Hs) as [Hc Hr].
  pose proof (updateEntryRankings_normal fails entries w1) as Hm.
  pose proof (updateEntryRankings_normal fails entries w1') as Hm'.
  unfold run in Hr.
  destruct (updateEntryRankings fails entries w1) as [[[]|?] w2]; [|done].
  destruct (updateEntryRankings fails entries w1') as [[[]|?] w2']; [|done].
  simpl. by apply Hrank.
Qed.
End ranking_simulation.

(** C1 (violated by the code): [runGame] ranks the entries it loaded before
    the aggregation.  In the sample store the entries 1, 2 and 5 of pool 7
    (ranked by goals) hold 0, 5 and 7 goals; the run computes 9, 2 and 0
    goals for them and stores the ranks 3, 2 and 1: the descending order of
    the loaded goals, the reverse of that of the goals just computed. *)
Theorem runGame_ranks_by_loaded_goals :
  let w := Sample.store in
  let w' := run (runGame Sample.noFailure Sample.reads) w in
  (λ k, Entry.goals <$> entry_table w !! k) <$> [1; 2; 5]
  = [Some 0; Some 5; Some 7]
  ∧ (λ k, Entry.goals <$> entry_table w' !! k) <$> [1; 2; 5]
    = [Some 9; Some 2; Some 0]
  ∧ (λ k, Entry.rank <$> entry_table w' !! k) <$> [1; 2; 5]
    = [Some (Some 3); Some (Some 2); Some (Some 1)]
  ∧ console w' = [LogRunningGame; LogGameRunSuccessfully].
Proof. vm_compute. repeat split. Qed.

(** ** The claims at the sample store *)

(** The ranking of the sample entries, without failures: pool 7 is ranked
    1, 2, 3 and entry 4, which has no pool, is left alone. *)
Lemma ranking_dense_descending_witness :
  let w := Sample.store in
  let w' := run (updateEntryRankings Sample.noFailure Sample.entries) w in
  NoDup (Entry.id <$> Sample.entries)
  ∧ console w' = console w ++ []
  ∧ filter (inPool 7) Sample.entries = [Sample.e1; Sample.e2; Sample.e5]
  ∧ (∃ useNetGoals sorted,
       ownGoalsRule [Sample.e1; Sample.e2; Sample.e5] = Some useNetGoals ∧
       sorted ≡ₚ [Sample.e1; Sample.e2; Sample.e5] ∧
       StronglySorted (descending (rankingKey useNetGoals)) sorted ∧
       storedRank w' <$> sorted = [Some 1; Some 2; Some 3])
  ∧ Entry.pool Sample.e4 = None
  ∧ entry_table w' !! 4 = entry_table w !! 4
  ∧ Forall (λ c, where_id c.1 ≠ 4) (newCalls w w').
Proof.
  simpl.
  assert (NoDup (Entry.id <$> Sample.entries)) as Hnd.
  { apply (bool_decide_unpack _). vm_compute. exact I. }
  assert (console (run (updateEntryRankings Sample.noFailure Sample.entries)
                     Sample.store)
          = console Sample.store ++ []) as Hcon by (vm_compute; reflexivity).
  destruct (ranking_dense_descending Sample.noFailure Sample.entries
              Sample.store [] Hnd Hcon) as [Hpools Hnone].
  assert (filter (inPool 7) Sample.entries
          = [Sample.e1; Sample.e2; Sample.e5]) as Hfilter
    by (vm_compute; reflexivity).
  split_and!; [done|done|done| |reflexivity| |].
  - specialize (Hpools 7). simpl in Hpools. rewrite Hfilter in Hpools.
    apply Hpools; [discriminate|]. intros error. apply not_elem_of_nil.
  - apply (Hnone Sample.e4); [|reflexivity].
    apply (list_elem_of_lookup_2 _ 3%nat). reflexivity.
  - apply (Hnone Sample.e4); [|reflexivity].
    apply (list_elem_of_lookup_2 _ 3%nat). reflexivity.
Defined.


(** Every write to entry 1 fails: entry 2 still gets its statistics, and
    pool 8 is still ranked although the batch of pool 7 fails. *)
Lemma failure_isolation_witness :
  let w := Sample.store in
  let w1 := run (updateEntryStatistics Sample.entry1Fails Sample.entries
                   Sample.players) w in
  let w2 := run (updateEntryRankings Sample.entry1Fails Sample.entries) w in
  NoDup (Entry.id <$> Sample.entries)
  ∧ console w1 = [ErrUpdatingEntry 1 PrismaClientUnknownRequestError]
  ∧ entry_table w1 !! 2
    = Some (applyData (data (statisticsArgs Sample.players Sample.e2)) Sample.e2)
  ∧ console w2 = [ErrUpdatingRankings 7 PrismaClientUnknownRequestError]
  ∧ (8, [Sample.e3]) ∈ groupByPool Sample.entries
  ∧ storedRank w2 Sample.e3 = Some 1.
Proof.
  simpl.
  assert (NoDup (Entry.id <$> Sample.entries)) as Hnd.
  { apply (bool_decide_unpack _). vm_compute. exact I. }
  destruct (failure_isolation Sample.entry1Fails Sample.players Sample.entries
              Sample.store Hnd) as [(_ & _ & Hentry) (_ & Hpool)].
  assert ((8, [Sample.e3]) ∈ groupByPool Sample.entries) as Hin.
  { apply (list_elem_of_lookup_2 _ 1%nat). vm_compute. reflexivity. }
  split_and!; [done|vm_compute; reflexivity| |vm_compute; reflexivity|done|].
  - apply (Hentry 1%nat Sample.e2 Sample.e2); [reflexivity| |reflexivity].
    vm_compute. reflexivity.
  - apply (Hpool 8 [Sample.e3] true Hin eq_refl) with (j := 0%nat).
    + intros e He. apply list_elem_of_singleton in He as ->.
      exists Sample.e3. vm_compute. reflexivity.
    + intros n [|j] e Hj; [|done]. simpl in Hj.
      injection Hj as <-. reflexivity.
    + reflexivity.
Defined.

(** A second aggregation over the entries as the first one stored them. *)
Lemma aggregation_idempotent_witness :
  let reloaded :=
    (λ e, applyData (data (statisticsArgs Sample.players e)) e)
      <$> Sample.entries in
  let w := Sample.store in
  let w1 := run (updateEntryStatistics Sample.noFailure Sample.entries
                   Sample.players) w in
  let w2 := run (updateEntryStatistics Sample.noFailure reloaded
                   Sample.players) w1 in
  Forall2 samePicks Sample.entries reloaded
  ∧ neverFails Sample.noFailure
  ∧ (newCalls w1 w2).*1 = (newCalls w w1).*1
  ∧ entry_table w2 = entry_table w1.
Proof.
  simpl.
  assert (Forall2 samePicks Sample.entries
            ((λ e, applyData (data (statisticsArgs Sample.players e)) e)
               <$> Sample.entries)) as Hsame.
  { repeat constructor. }
  assert (neverFails Sample.noFailure) as Hnever by (intros n a; reflexivity).
  destruct (aggregation_idempotent Sample.noFailure Sample.noFailure
              Sample.players Sample.entries _ Sample.store Hsame)
    as [Hcalls Htable].
  split_and!; [done|done|done|by apply Htable].
Defined.

(** A second, different PlayerStat for player 10 at the end of the list. *)
Lemma later_duplicate_ignored_witness :
  let p := Player.mk 10 9 0 0.5%float in
  let q := Player.mk 10 100 100 7%float in
  let other := Player.mk 20 2 1 0.25%float in
  let picks := [Footballer.mk 10; Footballer.mk 20] in
  Player.id q = Player.id p
  ∧ computeStatistics [p; other; q] picks = computeStatistics [p; other] picks.
Proof.
  simpl. split; [reflexivity|].
  apply (later_duplicate_ignored [] (Player.mk 10 9 0 0.5%float)
           [Player.mk 20 2 1 0.25%float] (Player.mk 10 100 100 7%float) []).
  reflexivity.
Defined.

(** Entries 2 and 6 tie on goals: entry 2 comes first in the input and
    gets rank 2, entry 6 gets rank 3. *)
Lemma ties_keep_input_order_witness :
  let w := Sample.tiedStore in
  let w' := run (updateEntryRankings Sample.noFailure Sample.tied) w in
  NoDup (Entry.id <$> Sample.tied)
  ∧ console w' = console w ++ []
  ∧ filter (inPool 7) Sample.tied = [Sample.e1; Sample.e2; Sample.e6; Sample.e5]
  ∧ rankingKey false <$> [Sample.e1; Sample.e2; Sample.e6; Sample.e5]
    = [0; 5; 5; 7]
  ∧ storedRank w' <$> [Sample.e1; Sample.e2; Sample.e6; Sample.e5]
    = [Some 4; Some 2; Some 3; Some 1]
  ∧ (∃ ra rb,
       storedRank w' Sample.e2 = Some ra ∧ storedRank w' Sample.e6 = Some rb ∧
       ra < rb ∧
       ∀ c rc, c ∈ [Sample.e1; Sample.e2; Sample.e6; Sample.e5] →
               storedRank w' c = Some rc → ra ≤ rc ≤ rb →
               rankingKey false c = rankingKey false Sample.e2).
Proof.
  cbv zeta.
  assert (NoDup (Entry.id <$> Sample.tied)) as Hnd.
  { apply (bool_decide_unpack _). vm_compute. exact I. }
  assert (console (run (updateEntryRankings Sample.noFailure Sample.tied)
                     Sample.tiedStore)
          = console Sample.tiedStore ++ []) as Hcon by (vm_compute; reflexivity).
  assert (filter (inPool 7) Sample.tied
          = [Sample.e1; Sample.e2; Sample.e6; Sample.e5]) as Hfilter
    by (vm_compute; reflexivity).
  destruct (ties_keep_input_order Sample.noFailure Sample.tied
              Sample.tiedStore [] Hnd Hcon 7) as (u & Hu & Hrank & Hties).
  { rewrite Hfilter. discriminate. }
  { intros error. apply not_elem_of_nil. }
  rewrite Hfilter in Hu, Hrank, Hties.
  assert (u = false) as -> by (vm_compute in Hu; congruence).
  split_and!; [done|done|done|reflexivity| |].
  - cbn [fmap list_fmap].
    rewrite (Hrank 0%nat Sample.e1 eq_refl), (Hrank 1%nat Sample.e2 eq_refl),
            (Hrank 2%nat Sample.e6 eq_refl), (Hrank 3%nat Sample.e5 eq_refl).
    vm_compute. reflexivity.
  - apply (Hties 1%nat 3%nat Sample.e2 Sample.e6);
      [lia|reflexivity|reflexivity|reflexivity|reflexivity|reflexivity].
Defined.



(** * Further properties of the code *)

(** ** [runGame] as a whole *)

#[global] Instance sameIdentity_preorder : PreOrder sameIdentity.
Proof.
  split; [by intros e|].
  intros e1 e2 e3 [] []. split; congruence.
Qed.

Lemma loadedEntries_elem_of w e :
  e ∈ loadedEntries w ↔ ∃ k, entry_table w !! k = Some e.
Proof.
  unfold loadedEntries. rewrite list_elem_of_fmap. split.
  - intros ([k e'] & -> & Hin). exists k. by apply elem_of_map_to_list.
  - intros (k & Hk). exists (k, e). split; [done|].
    by apply elem_of_map_to_list.
Qed.

Lemma loadedEntries_ids w :
  storeWf w → Entry.id <$> loadedEntries w = (map_to_list (entry_table w)).*1.
Proof.
  intros Hwf. unfold loadedEntries. rewrite <-list_fmap_compose.
  apply list_fmap_ext. intros i [k e] Hi. simpl.
  apply Hwf. apply elem_of_map_to_list. by eapply list_elem_of_lookup_2.
Qed.

Lemma loadedEntries_NoDup w :
  storeWf w → NoDup (Entry.id <$> loadedEntries w).
Proof.
  intros Hwf. rewrite loadedEntries_ids by done. apply NoDup_fst_map_to_list.
Qed.

Lemma loadedEntries_lookup w e :
  storeWf w → e ∈ loadedEntries w → entry_table w !! Entry.id e = Some e.
Proof.
  intros Hwf (k & Hk)%loadedEntries_elem_of. by rewrite (Hwf _ _ Hk).
Qed.

Section runGame_facts.
Variable fails : nat → UpdateArgs → option Error.

(** The four steps of a run whose reads succeed and whose store is not
    empty. *)
Lemma runGame_unfold footballers eplPlayers w :
  loadedEntries w ≠ [] →
  let reads := mkReads (Normal footballers) (Normal eplPlayers) None in
  let entries := loadedEntries w in
  let relevantPlayers := relevantPlayersOf footballers eplPlayers in
  run (runGame fails reads) w
  = run (console_log LogGameRunSuccessfully)
      (run (updateEntryRankings fails entries)
         (run (updateEntryStatistics fails entries relevantPlayers)
            (run (console_log LogRunningGame) w))).
Proof.
  intros Hne. cbv zeta.
  unfold run at 1. unfold runGame, try_catch, mbind, Exec_bind.
  unfold console_log at 1. unfold lift, fetchEPLPlayerData, try_catch, lift.
  cbn [footballer_findMany bootstrap_static entry_findMany_error fst snd].
  unfold fetchAllEntries. cbn [entry_findMany_error entry_table].
  fold (loadedEntries w).
  destruct (length (loadedEntries w) =? 0)%nat eqn:Hlen.
  { apply Nat.eqb_eq, nil_length_inv in Hlen. done. }
  fold (relevantPlayersOf footballers eplPlayers).
  set (w0 := run (console_log LogRunningGame) w).
  change {| entry_table := entry_table w; calls := calls w;
            console := console w ++ [LogRunningGame] |} with w0.
  pose proof (updateEntryStatistics_normal fails
                (relevantPlayersOf footballers eplPlayers)
                (loadedEntries w) w0) as Hn.
  unfold run.
  destruct (updateEntryStatistics fails _ _ w0) as [[[]|?] w1]; [|done].
  cbn [snd].
  pose proof (updateEntryRankings_normal fails (loadedEntries w) w1) as Hm.
  destruct (updateEntryRankings fails _ w1) as [[[]|?] w2]; [|done].
  reflexivity.
Qed.

Lemma runGame_footprint reads :
  preserves (λ _, True) sameIdentity (runGame fails reads).
Proof.
  assert (∀ args, preserves (λ _, True) sameIdentity
                    (prisma_entry_update fails args)) as Hupd.
  { intros args. apply preserves_update; [apply _|done|].
    intros e. by destruct (data args). }
  assert (∀ A (c : Completion A), preserves (λ _, True) sameIdentity (lift c))
    as Hlift.
  { intros A c w. apply Footprint_refl. apply _. }
  unfold runGame.
  apply preserves_try_catch; [apply _| |].
  - apply preserves_bind; [apply _|apply preserves_console_log; apply _|].
    intros _. apply preserves_bind; [apply _|apply Hlift|].
    intros footballers. apply preserves_bind; [apply _| |].
    { unfold fetchEPLPlayerData. apply preserves_try_catch; [apply _|apply Hlift|].
      intros error. apply preserves_bind; [apply _| |].
      - apply preserves_console_log; apply _.
      - intros _. apply preserves_throw; apply _. }
    intros eplPlayers. apply preserves_bind; [apply _| |].
    { intros w. unfold run, fetchAllEntries.
      destruct (entry_findMany_error reads); apply Footprint_refl; apply _. }
    intros entries. destruct (length entries =? 0)%nat.
    { apply preserves_console_log; apply _. }
    apply preserves_bind; [apply _| |].
    { apply preserves_for_of; [apply _|]. intros e _.
      apply preserves_try_catch; [apply _|apply Hupd|].
      intros error. apply preserves_console_log; apply _. }
    intros _. apply preserves_bind; [apply _| |].
    { apply preserves_for_of; [apply _|]. intros [poolId poolEntries] _.
      apply preserves_try_catch; [apply _| |].
      - unfold rankPoolEntries. apply preserves_bind; [apply _| |].
        + intros w. unfold run. rewrite firstOwnGoalsRule_eq.
          apply Footprint_refl. apply _.
        + intros useNetGoals. generalize 0%nat.
          induction (sort _ _) as [|e rest IH]; intros i; simpl.
          * apply preserves_ret; apply _.
          * apply preserves_bind; [apply _|apply Hupd|]. intros _. apply IH.
      - intros error. apply preserves_console_log; apply _. }
    intros _. apply preserves_console_log; apply _.
  - intros error. destruct error; apply preserves_console_log; apply _.
Qed.
End runGame_facts.

(** X1: [runGame] never lets an error escape: whatever the reads return and
    whichever writes fail, the run completes normally. *)
Theorem runGame_completes fails reads w :
  (runGame fails reads w).1 = Normal ().
Proof.
  unfold runGame, try_catch.
  match goal with |- (let (c, w') := ?m w in _).1 = _ =>
    destruct (m w) as [[[]|error] w1] end; [done|].
  by destruct error.
Qed.

(** X2: a run in which one of the three reads fails is abandoned before any
    write: the entry table and the call history are as before, and the
    console gets the start line and the line of the error, preceded, for
    the statistics feed, by the line of [fetchEPLPlayerData]. *)
Theorem runGame_read_failure_aborts fails reads w :
  let w' := run (runGame fails reads) w in
  (∀ error, footballer_findMany reads = Throw error →
     entry_table w' = entry_table w ∧ calls w' = calls w ∧
     console w' = console w ++ [LogRunningGame; runGameErrorLine error])
  ∧ (∀ footballers error,
       footballer_findMany reads = Normal footballers →
       bootstrap_static reads = Throw error →
       entry_table w' = entry_table w ∧ calls w' = calls w ∧
       console w' = console w ++ [LogRunningGame;
                                  ErrFetchingEPLPlayerData error;
                                  runGameErrorLine error])
  ∧ (∀ footballers eplPlayers error,
       footballer_findMany reads = Normal footballers →
       bootstrap_static reads = Normal eplPlayers →
       entry_findMany_error reads = Some error →
       entry_table w' = entry_table w ∧ calls w' = calls w ∧
       console w' = console w ++ [LogRunningGame; runGameErrorLine error]).
Proof.
  cbv zeta. unfold run, runGame, try_catch, mbind, Exec_bind.
  unfold console_log at 1. unfold lift, fetchEPLPlayerData, try_catch, lift.
  unfold fetchAllEntries. split_and!.
  - intros error ->. simpl. destruct error; simpl; by rewrite <-app_assoc.
  - intros footballers error -> ->. simpl.
    destruct error; simpl; by rewrite <-!app_assoc.
  - intros footballers eplPlayers error -> -> ->. simpl.
    destruct error; simpl; by rewrite <-app_assoc.
Qed.

(** X3: with an empty entry table and successful reads the run is a no-op:
    no update is issued, whatever the feed holds, and the console gets the
    start line and "No entries found". *)
Theorem runGame_no_entries fails footballers eplPlayers w :
  entry_table w = ∅ →
  let w' := run (runGame fails
                   (mkReads (Normal footballers) (Normal eplPlayers) None)) w in
  entry_table w' = ∅ ∧ calls w' = calls w ∧
  console w' = console w ++ [LogRunningGame; LogNoEntriesFound].
Proof.
  intros Hempty. cbv zeta. unfold run, runGame, try_catch, mbind, Exec_bind.
  unfold console_log at 1. unfold lift, fetchEPLPlayerData, try_catch, lift.
  unfold fetchAllEntries. simpl. rewrite Hempty, map_to_list_empty. simpl.
  by rewrite <-app_assoc.
Qed.

(** X4: a run never creates or deletes an entry and never changes the
    identity, picks, pool or profile of one; the call history and the
    console only grow. *)
Theorem runGame_preserves_entries fails reads w :
  let w' := run (runGame fails reads) w in
  (∀ k, option_Forall2 sameIdentity (entry_table w !! k) (entry_table w' !! k))
  ∧ (∃ new, calls w' = calls w ++ new)
  ∧ (∃ lines, console w' = console w ++ lines).
Proof.
  cbv zeta. destruct (runGame_footprint fails reads w)
    as [(new & Hc & _) Hl _ Hr].
  split_and!; [done|by exists new|done].
Qed.


(** ** The filter on the statistics feed *)

Lemma find_filter {A} (P : A → bool) (Q : A → Prop) `{∀ x, Decision (Q x)} l :
  (∀ x, P x = true → Q x) → List.find P (filter Q l) = List.find P l.
Proof.
  intros HPQ. induction l as [|x l IH]; [done|].
  rewrite filter_cons. simpl. destruct (P x) eqn:HP.
  - rewrite decide_True by auto. simpl. by rewrite HP.
  - case_decide; simpl; by rewrite ?HP.
Qed.

Lemma find_filter_none {A} (P : A → bool) (Q : A → Prop)
    `{∀ x, Decision (Q x)} l :
  (∀ x, P x = true → ¬ Q x) → List.find P (filter Q l) = None.
Proof.
  intros HPQ. induction l as [|x l IH]; [done|].
  rewrite filter_cons. case_decide as HQ; [|done]. simpl.
  destruct (P x) eqn:HP; [|done]. by destruct (HPQ x HP).
Qed.

Lemma computeStatistics_ext_in relevantPlayers relevantPlayers' footballers :
  (∀ f, f ∈ footballers →
        findPlayer relevantPlayers f = findPlayer relevantPlayers' f) →
  computeStatistics relevantPlayers footballers
  = computeStatistics relevantPlayers' footballers.
Proof.
  intros Hfind. unfold computeStatistics, sumFootballers.
  assert (∀ acc, fold_left (addFootballer relevantPlayers) footballers acc
                 = fold_left (addFootballer relevantPlayers') footballers acc)
    as ->; [|done].
  induction footballers as [|f fs IH]; intros acc; [done|].
  simpl. rewrite IH by (intros; apply Hfind; by right).
  unfold addFootballer. by rewrite Hfind by left.
Qed.

(** X5: restricting the feed to the known footballers changes nothing for
    picks that are known footballers, and a pick that is not a known
    footballer is never matched, whatever the feed holds for its id. *)
Theorem relevantPlayers_filter footballers eplPlayers picks :
  let known := Footballer.id <$> footballers in
  let relevantPlayers := relevantPlayersOf footballers eplPlayers in
  (∀ f, Footballer.id f ∉ known → findPlayer relevantPlayers f = None)
  ∧ ((∀ f, f ∈ picks → Footballer.id f ∈ known) →
     computeStatistics relevantPlayers picks
     = computeStatistics eplPlayers picks).
Proof.
  cbv zeta. split.
  - intros f Hf. unfold findPlayer, relevantPlayersOf.
    apply find_filter_none. intros p Hp%Z.eqb_eq. by rewrite Hp.
  - intros Hknown. apply computeStatistics_ext_in. intros f Hf.
    unfold findPlayer, relevantPlayersOf. apply find_filter.
    intros p Hp%Z.eqb_eq. rewrite Hp. by apply Hknown.
Qed.

(** ** The calls of a run *)

(** X6: in a run whose reads succeed on a store that is not empty, the
    updates issued are one statistics update per stored entry, in the order
    the entries were loaded, followed only by rank updates addressed to
    loaded entries. *)
Theorem runGame_call_order fails footballers eplPlayers w :
  loadedEntries w ≠ [] →
  let entries := loadedEntries w in
  let relevantPlayers := relevantPlayersOf footballers eplPlayers in
  let w' := run (runGame fails
                   (mkReads (Normal footballers) (Normal eplPlayers) None)) w in
  ∃ outcomes ranking,
    length outcomes = length entries ∧
    newCalls w w'
    = zip (statisticsArgs relevantPlayers <$> entries) outcomes ++ ranking ∧
    Forall (λ c, rankCall entries c.1) ranking.
Proof.
  intros Hne. cbv zeta. rewrite runGame_unfold by done.
  set (w0 := run (console_log LogRunningGame) w).
  destruct (updateEntryStatistics_calls fails
              (relevantPlayersOf footballers eplPlayers) (loadedEntries w) w0)
    as (outcomes & Hlen & Hc1).
  set (w1 := run (updateEntryStatistics fails _ _) w0) in *.
  rewrite updateEntryRankings_unfold.
  destruct (rankPools_footprint fails (groupByPool (loadedEntries w)) w1)
    as [(ranking & Hc2 & Hd) _ _ _].
  exists outcomes, ranking. split_and!; [done| |].
  - apply newCalls_app. cbn [run console_log snd calls].
    rewrite Hc2, Hc1. by rewrite <-app_assoc.
  - eapply Forall_impl; [exact Hd|]. intros c [? (e & He & ?)].
    split; [done|]. exists e. split; [|done].
    by eapply Grouped_ids_in_pool; [apply groupByPool_Grouped|].
Qed.

(** ** What a run leaves in the store *)

Lemma descending_lookup {A} (key : A → Z) l i j a b :
  StronglySorted (descending key) l →
  (i < j)%nat → l !! i = Some a → l !! j = Some b → key b ≤ key a.
Proof.
  intros Hl. revert i j.
  induction Hl as [|x l Hl IH Hx]; intros i j Hij Ha Hb; [done|].
  destruct i as [|i], j as [|j]; simpl in *; try lia.
  - simplify_eq. rewrite Forall_forall in Hx.
    apply Hx. by eapply list_elem_of_lookup_2.
  - eapply (IH i j); eauto; lia.
Qed.

Lemma freshStatistics_key relevantPlayers useNetGoals e e' :
  freshStatistics relevantPlayers e → freshStatistics relevantPlayers e' →
  Entry.footballers e = Entry.footballers e' →
  rankingKey useNetGoals e = rankingKey useNetGoals e'.
Proof.
  unfold freshStatistics. intros He He' Hfs.
  rewrite <-He, <-He'. destruct useNetGoals; simpl; by rewrite Hfs.
Qed.

Lemma sameExceptRank_fresh relevantPlayers e e' :
  sameExceptRank
    (applyData (StatisticsData
                  (computeStatistics relevantPlayers (Entry.footballers e))) e)
    e' →
  sameIdentity e e' ∧ freshStatistics relevantPlayers e'.
Proof.
  intros []. simpl in *. split; [by split|].
  unfold freshStatistics. destruct e'; simpl in *. by subst.
Qed.

Section run_results.
Variable fails : nat → UpdateArgs → option Error.
Variables (footballers : list Footballer.t) (eplPlayers : list Player.t).

Let reads := mkReads (Normal footballers) (Normal eplPlayers) None.
Let relevantPlayers := relevantPlayersOf footballers eplPlayers.

(** After a run whose statistics writes do not fail, every row holds the
    statistics of its picks. *)
Lemma runGame_statistics w k e :
  storeWf w →
  (∀ n e, e ∈ loadedEntries w →
          fails n (statisticsArgs relevantPlayers e) = None) →
  entry_table w !! k = Some e →
  ∃ e', entry_table (run (runGame fails reads) w) !! k = Some e' ∧
        sameIdentity e e' ∧ freshStatistics relevantPlayers e'.
Proof.
  intros Hwf Hf Hk.
  assert (e ∈ loadedEntries w) as He by (apply loadedEntries_elem_of; eauto).
  assert (Entry.id e = k) as Hid by by apply Hwf.
  unfold reads. rewrite runGame_unfold
    by (intros Hnil; rewrite Hnil in He; by apply not_elem_of_nil in He).
  fold relevantPlayers.
  set (w0 := run (console_log LogRunningGame) w).
  apply list_elem_of_lookup_1 in He as [i Hi].
  pose proof (updateEntryStatistics_persisted fails relevantPlayers
                (loadedEntries w) w0 i e e (loadedEntries_NoDup w Hwf) Hi) as Hp.
  rewrite Hid in Hp. specialize (Hp Hk).
  specialize (Hp ltac:(apply Hf; by eapply list_elem_of_lookup_2)).
  set (w1 := run (updateEntryStatistics fails _ _) w0) in *.
  rewrite updateEntryRankings_unfold.
  destruct (rankPools_footprint fails (groupByPool (loadedEntries w)) w1)
    as [_ _ _ Hr].
  specialize (Hr k). rewrite Hp in Hr.
  inversion Hr as [? e' Hrel Heq1 Heq2|]; subst.
  exists e'. split; [by cbn [run console_log snd entry_table]|].
  by apply (sameExceptRank_fresh relevantPlayers).
Qed.

(** After a run, a pool whose rule can be read and whose rank writes do not
    fail is ranked along the order of the rows as they were loaded. *)
Lemma runGame_ranks w poolId useNetGoals :
  storeWf w →
  let poolEntries := filter (inPool poolId) (loadedEntries w) in
  let sorted := sort (compareFn useNetGoals) poolEntries in
  poolEntries ≠ [] →
  ownGoalsRule poolEntries = Some useNetGoals →
  (∀ n j e, sorted !! j = Some e → fails n (rankArgs j e) = None) →
  ∀ j e, sorted !! j = Some e →
    storedRank (run (runGame fails reads) w) e = Some (Z.of_nat j + 1).
Proof.
  intros Hwf. cbv zeta. intros Hne Hu Hf j e Hj.
  assert (loadedEntries w ≠ []) as Hload.
  { intros Hnil. by rewrite Hnil, filter_nil in Hne. }
  unfold reads. rewrite runGame_unfold by done. fold relevantPlayers.
  set (w0 := run (console_log LogRunningGame) w).
  set (w1 := run (updateEntryStatistics fails _ _) w0).
  rewrite updateEntryRankings_unfold.
  unfold storedRank. cbn [run console_log snd entry_table].
  change (storedRank (run (for_of (groupByPool (loadedEntries w))
                             (rankPool fails)) w1) e = Some (Z.of_nat j + 1)).
  eapply rankPools_isolated; [| |exact Hu| |exact Hf|exact Hj].
  - apply Grouped_NoDup_ids with (entries := loadedEntries w);
      [apply groupByPool_Grouped|by apply loadedEntries_NoDup].
  - by apply groupByPool_lookup.
  - intros e0 [_ He0]%list_elem_of_filter.
    destruct (updateEntryStatistics_footprint fails relevantPlayers
                (loadedEntries w) w0) as [_ _ _ Hr].
    specialize (Hr (Entry.id e0)).
    change (entry_table w0) with (entry_table w) in Hr.
    rewrite (loadedEntries_lookup w e0 Hwf He0) in Hr.
    inversion Hr; subst. eauto.
Qed.
End run_results.

(** X7: after a run whose reads succeed and in which no statistics write
    fails, every stored entry carries exactly the statistics computed from
    its picks and the relevant players of that run, and keeps its identity,
    picks, pool and profile. *)
Theorem runGame_statistics_fresh fails footballers eplPlayers w k e :
  storeWf w →
  let relevantPlayers := relevantPlayersOf footballers eplPlayers in
  let w' := run (runGame fails
                   (mkReads (Normal footballers) (Normal eplPlayers) None)) w in
  (∀ n e, e ∈ loadedEntries w →
          fails n (statisticsArgs relevantPlayers e) = None) →
  entry_table w !! k = Some e →
  ∃ e', entry_table w' !! k = Some e' ∧
        sameIdentity e e' ∧
        applyData (StatisticsData
                     (computeStatistics relevantPlayers (Entry.footballers e)))
                  e'
        = e'.
Proof.
  intros Hwf. cbv zeta. intros Hf Hk.
  destruct (runGame_statistics fails footballers eplPlayers w k e Hwf Hf Hk)
    as (e' & Hk' & Hsame & Hfresh).
  exists e'. split_and!; [done..|].
  unfold freshStatistics in Hfresh. by rewrite <-(same_footballers _ _ Hsame).
Qed.

(** X8: after a run whose reads succeed, a pool whose rule can be read and
    whose rank writes do not fail is ranked 1, 2, ..., N along the
    descending order of the key (net_goals or goals) that its rows held
    when they were loaded, before the aggregation of that run. *)
Theorem runGame_ranks_follow_loaded_values
    fails footballers eplPlayers w poolId useNetGoals :
  storeWf w →
  let poolEntries := filter (inPool poolId) (loadedEntries w) in
  let sorted := sort (compareFn useNetGoals) poolEntries in
  let w' := run (runGame fails
                   (mkReads (Normal footballers) (Normal eplPlayers) None)) w in
  poolEntries ≠ [] →
  ownGoalsRule poolEntries = Some useNetGoals →
  (∀ n j e, sorted !! j = Some e → fails n (rankArgs j e) = None) →
  sorted ≡ₚ poolEntries
  ∧ StronglySorted (descending (rankingKey useNetGoals)) sorted
  ∧ Forall (λ e, entry_table w !! Entry.id e = Some e) sorted
  ∧ storedRank w' <$> sorted
    = (λ r, Some (Z.of_nat r)) <$> seq 1 (length poolEntries).
Proof.
  intros Hwf. cbv zeta. intros Hne Hu Hf.
  pose proof (runGame_ranks fails footballers eplPlayers w poolId useNetGoals
                Hwf Hne Hu Hf) as Hr.
  split_and!.
  - apply sort_perm.
  - apply sort_descending, compareFn_rankingKey.
  - apply Forall_forall. intros e He.
    rewrite (sort_perm (compareFn useNetGoals)) in He.
    apply list_elem_of_filter in He as [_ He].
    by apply loadedEntries_lookup.
  - rewrite <-(sort_length (compareFn useNetGoals)).
    apply list_eq. intros j. rewrite !list_lookup_fmap.
    destruct (sort _ _ !! j) as [e|] eqn:Hj; simpl.
    + rewrite (Hr j e Hj).
      rewrite lookup_seq_lt by (by eapply lookup_lt_Some).
      simpl. do 2 f_equal. lia.
    + apply lookup_ge_None in Hj. by rewrite lookup_seq_ge.
Qed.

Lemma runGame_storeWf fails reads w :
  storeWf w → storeWf (run (runGame fails reads) w).
Proof.
  intros Hwf k e' Hk.
  destruct (runGame_footprint fails reads w) as [_ _ _ Hr].
  specialize (Hr k). rewrite Hk in Hr.
  inversion Hr as [e ? [Hid _ _ _] Heq|]; subst.
  rewrite Hid. apply Hwf. done.
Qed.

(** X9: after two consecutive runs on the same feed in which no write
    fails, the ranks of a pool agree with the statistics in the store: every
    entry of the pool has a rank, two entries have different ranks, and an
    entry with a better rank has a key at least as large. *)
Theorem second_run_ranks_agree
    fails1 fails2 footballers eplPlayers w poolId useNetGoals :
  storeWf w → neverFails fails1 → neverFails fails2 →
  let reads := mkReads (Normal footballers) (Normal eplPlayers) None in
  let w1 := run (runGame fails1 reads) w in
  let w2 := run (runGame fails2 reads) w1 in
  ownGoalsRule (filter (inPool poolId) (loadedEntries w1)) = Some useNetGoals →
  ∀ ka kb a b,
    entry_table w2 !! ka = Some a → entry_table w2 !! kb = Some b →
    inPool poolId a → inPool poolId b →
    ∃ ra rb,
      Entry.rank a = Some ra ∧ Entry.rank b = Some rb ∧
      (ka ≠ kb → ra ≠ rb) ∧
      (ra < rb → rankingKey useNetGoals b ≤ rankingKey useNetGoals a).
Proof.
  intros Hwf Hf1 Hf2. cbv zeta. intros Hu ka kb a b Ha Hb Hpa Hpb.
  set (reads := mkReads (Normal footballers) (Normal eplPlayers) None) in *.
  set (rp := relevantPlayersOf footballers eplPlayers).
  set (w1 := run (runGame fails1 reads) w) in *.
  set (w2 := run (runGame fails2 reads) w1) in *.
  assert (storeWf w1) as Hwf1 by by apply runGame_storeWf.
  (* the rows of the two entries after the first run and before it *)
  assert (∀ k x, entry_table w2 !! k = Some x → inPool poolId x →
            ∃ x1, entry_table w1 !! k = Some x1 ∧
                  x1 ∈ filter (inPool poolId) (loadedEntries w1) ∧
                  Entry.id x1 = k ∧
                  rankingKey useNetGoals x = rankingKey useNetGoals x1)
    as Hback.
  { intros k x Hx Hpx.
    destruct (runGame_footprint fails2 reads w1) as [_ _ _ Hr2].
    specialize (Hr2 k). fold w2 in Hr2. rewrite Hx in Hr2.
    inversion Hr2 as [x1 ? Hsame2 Hx1|]; subst. symmetry in Hx1.
    destruct (runGame_footprint fails1 reads w) as [_ _ _ Hr1].
    specialize (Hr1 k). fold w1 in Hr1. rewrite Hx1 in Hr1.
    inversion Hr1 as [x0 ? Hsame1 Hx0|]; subst. symmetry in Hx0.
    destruct (runGame_statistics fails1 footballers eplPlayers w k x0 Hwf
                ltac:(intros; apply Hf1) Hx0) as (x1' & Hx1' & _ & Hfresh1).
    fold reads w1 in Hx1'. rewrite Hx1 in Hx1'. injection Hx1' as <-.
    destruct (runGame_statistics fails2 footballers eplPlayers w1 k x1 Hwf1
                ltac:(intros; apply Hf2) Hx1) as (x' & Hx' & _ & Hfresh2).
    fold reads w2 in Hx'. rewrite Hx in Hx'. injection Hx' as <-.
    exists x1. split_and!; [done| |by apply Hwf1|].
    - apply list_elem_of_filter. split.
      + unfold inPool in *. by rewrite <-(same_pool _ _ Hsame2).
      + apply loadedEntries_elem_of. eauto.
    - apply (freshStatistics_key rp); [done..|].
      apply (same_footballers _ _ Hsame2). }
  destruct (Hback ka a Ha Hpa) as (a1 & Ha1 & Hina & Hida & Hkeya).
  destruct (Hback kb b Hb Hpb) as (b1 & Hb1 & Hinb & Hidb & Hkeyb).
  set (group := filter (inPool poolId) (loadedEntries w1)) in *.
  set (sorted := sort (compareFn useNetGoals) group).
  assert (group ≠ []) as Hne.
  { intros Hnil. rewrite Hnil in Hina. by apply not_elem_of_nil in Hina. }
  pose proof (runGame_ranks fails2 footballers eplPlayers w1 poolId useNetGoals
                Hwf1 Hne Hu ltac:(intros; apply Hf2)) as Hranks.
  fold reads w2 group sorted in Hranks.
  assert (a1 ∈ sorted) as [i Hi]%list_elem_of_lookup_1.
  { unfold sorted. by rewrite (sort_perm (compareFn useNetGoals)). }
  assert (b1 ∈ sorted) as [j Hj]%list_elem_of_lookup_1.
  { unfold sorted. by rewrite (sort_perm (compareFn useNetGoals)). }
  pose proof (Hranks i a1 Hi) as Hra. pose proof (Hranks j b1 Hj) as Hrb.
  unfold storedRank in Hra, Hrb. rewrite Hida, Ha in Hra.
  rewrite Hidb, Hb in Hrb. simpl in Hra, Hrb.
  exists (Z.of_nat i + 1), (Z.of_nat j + 1). split_and!; [done|done| |].
  - intros Hk Heq. assert (i = j) as -> by lia.
    rewrite Hi in Hj. injection Hj as <-. congruence.
  - intros Hlt. rewrite Hkeya, Hkeyb.
    eapply (descending_lookup (rankingKey useNetGoals) sorted i j);
      [|lia|done|done].
    apply sort_descending, compareFn_rankingKey.
Qed.

(** ** The snapshot job *)

(** X10: [updateGameState] never lets an error escape, whatever the requests
    return and whether or not the insertion fails. *)
Theorem updateGameState_completes env w :
  (Snapshot.updateGameState env w).1 = Normal ().
Proof.
  unfold Snapshot.updateGameState, Snapshot.try_catch at 1.
  match goal with |- (let (c, w') := ?m w in _).1 = _ =>
    by destruct (m w) as [[[]|error] w1] end.
Qed.

(** X11: the upcoming fixtures of a snapshot are at most five, none of them
    is finished, and they are the first unfinished fixtures of the feed in
    feed order: the unfinished fixtures left out come after them, and there
    are some only when five were taken.  A fixture whose [finished] is not
    the boolean [false] is never taken. *)
Theorem upcoming_first_five fixtures :
  let unfinished := filter (λ f, Snapshot.finished f = Some false) fixtures in
  (length (Snapshot.upcoming fixtures) ≤ 5)%nat
  ∧ Forall (λ f, Snapshot.finished f = Some false) (Snapshot.upcoming fixtures)
  ∧ Snapshot.upcoming fixtures `sublist_of` fixtures
  ∧ ∃ rest, unfinished = Snapshot.upcoming fixtures ++ rest ∧
            (rest ≠ [] → length (Snapshot.upcoming fixtures) = 5%nat).
Proof.
  cbv zeta. unfold Snapshot.upcoming.
  set (unfinished := filter _ fixtures). split_and!.
  - rewrite length_take. lia.
  - apply Forall_take, Forall_forall. intros f Hf.
    by apply list_elem_of_filter in Hf as [? _].
  - etrans; [apply sublist_take|apply sublist_filter].
  - exists (drop 5 unfinished). split; [by rewrite take_drop|].
    intros Hrest. rewrite length_take.
    destruct (decide (5 ≤ length unfinished)%nat) as [?|Hlt]; [lia|].
    destruct Hrest. apply drop_ge. lia.
Qed.

(** X12: when both requests succeed, [generalInfo] is present and the
    insertion succeeds, the job appends exactly one row, after the rows
    already there: the clock reading, the two counters of the feed and the
    upcoming fixtures; it issues the two requests in order and prints the
    success line. *)
Theorem updateGameState_success env w info fixtures :
  Snapshot.get_bootstrap_static env = Normal (Some info) →
  Snapshot.get_fixtures env = Normal fixtures →
  Snapshot.create_error env = None →
  Snapshot.run (Snapshot.updateGameState env) w
  = {| Snapshot.gameState_table :=
         Snapshot.gameState_table w ++
         [ {| Snapshot.timestamp := Snapshot.now env;
              Snapshot.totalPlayers := Snapshot.total_players info;
              Snapshot.currentGameweek := Snapshot.current_event info;
              Snapshot.upcomingFixtures := Snapshot.upcoming fixtures |} ];
       Snapshot.requests :=
         Snapshot.requests w ++ [Snapshot.BootstrapStatic; Snapshot.Fixtures];
       Snapshot.console := Snapshot.console w ++ [Snapshot.GameStateUpdated] |}.
Proof.
  intros Hb Hf Hc.
  unfold Snapshot.run, Snapshot.updateGameState, Snapshot.fetchFPLData,
    Snapshot.processAndSaveGameState, Snapshot.try_catch, mbind,
    Snapshot.Exec_bind, Snapshot.axios_get, Snapshot.prisma_gameState_create.
  rewrite Hb, Hf. simpl. rewrite Hc. simpl. by rewrite <-app_assoc.
Qed.

(** X13: when anything fails the game-state table is left as it was, and
    the console tells the stage.  If the first request fails the second is
    not issued.  A failed request is reported by [fetchFPLData] and by
    [updateGameState]; an absent [generalInfo] only by [updateGameState],
    since the row is built outside the [try] of
    [processAndSaveGameState]; a failed insertion by both. *)
Theorem updateGameState_failure env w :
  let w' := Snapshot.run (Snapshot.updateGameState env) w in
  (∀ error, Snapshot.get_bootstrap_static env = Throw error →
     Snapshot.gameState_table w' = Snapshot.gameState_table w ∧
     Snapshot.requests w' = Snapshot.requests w ++ [Snapshot.BootstrapStatic] ∧
     Snapshot.console w'
     = Snapshot.console w ++ [Snapshot.ErrFetchingFPLData error;
                              Snapshot.ErrInUpdateGameState error])
  ∧ (∀ info error,
       Snapshot.get_bootstrap_static env = Normal info →
       Snapshot.get_fixtures env = Throw error →
       Snapshot.gameState_table w' = Snapshot.gameState_table w ∧
       Snapshot.requests w'
       = Snapshot.requests w ++ [Snapshot.BootstrapStatic; Snapshot.Fixtures] ∧
       Snapshot.console w'
       = Snapshot.console w ++ [Snapshot.ErrFetchingFPLData error;
                                Snapshot.ErrInUpdateGameState error])
  ∧ (∀ fixtures,
       Snapshot.get_bootstrap_static env = Normal None →
       Snapshot.get_fixtures env = Normal fixtures →
       Snapshot.gameState_table w' = Snapshot.gameState_table w ∧
       Snapshot.console w'
       = Snapshot.console w ++ [Snapshot.ErrInUpdateGameState TypeError])
  ∧ (∀ info fixtures error,
       Snapshot.get_bootstrap_static env = Normal (Some info) →
       Snapshot.get_fixtures env = Normal fixtures →
       Snapshot.create_error env = Some error →
       Snapshot.gameState_table w' = Snapshot.gameState_table w ∧
       Snapshot.console w'
       = Snapshot.console w ++ [Snapshot.ErrSavingGameState error;
                                Snapshot.ErrInUpdateGameState error]).
Proof.
  cbv zeta.
  unfold Snapshot.run, Snapshot.updateGameState, Snapshot.fetchFPLData,
    Snapshot.processAndSaveGameState, Snapshot.try_catch, mbind,
    Snapshot.Exec_bind, Snapshot.axios_get, Snapshot.prisma_gameState_create.
  split_and!.
  - intros error ->. simpl. by rewrite <-!app_assoc.
  - intros info error -> ->. simpl. by rewrite <-!app_assoc.
  - intros fixtures -> ->. simpl. done.
  - intros info fixtures error -> -> ->. simpl. by rewrite <-!app_assoc.
Qed.

(** X14: whatever happens, the job never changes or removes a stored
    snapshot and adds at most one. *)
Theorem updateGameState_append_only env w :
  let w' := Snapshot.run (Snapshot.updateGameState env) w in
  ∃ added, Snapshot.gameState_table w' = Snapshot.gameState_table w ++ added ∧
           (length added ≤ 1)%nat.
Proof.
  cbv zeta.
  unfold Snapshot.run, Snapshot.updateGameState, Snapshot.fetchFPLData,
    Snapshot.processAndSaveGameState, Snapshot.try_catch, mbind,
    Snapshot.Exec_bind, Snapshot.axios_get, Snapshot.prisma_gameState_create.
  destruct (Snapshot.get_bootstrap_static env) as [[info|]|e1]; simpl.
  - destruct (Snapshot.get_fixtures env) as [fixtures|e2]; simpl.
    + destruct (Snapshot.create_error env) as [e3|]; simpl.
      * exists []. split; [by rewrite app_nil_r|simpl; lia].
      * eexists [_]. split; [done|simpl; lia].
    + exists []. split; [by rewrite app_nil_r|simpl; lia].
  - destruct (Snapshot.get_fixtures env) as [fixtures|e2]; simpl.
    + exists []. split; [by rewrite app_nil_r|simpl; lia].
    + exists []. split; [by rewrite app_nil_r|simpl; lia].
  - exists []. split; [by rewrite app_nil_r|simpl; lia].
Qed.

(** ** Sums over the picks *)

Lemma sumZ_perm l l' : l ≡ₚ l' → sumZ l = sumZ l'.
Proof. unfold sumZ. induction 1; simpl in *; lia. Qed.

Lemma magnitude_nonneg l : 0 ≤ magnitude l.
Proof.
  induction l as [|x l IH]; [done|].
  change (magnitude (x :: l)) with (Z.abs x + magnitude l). lia.
Qed.

Lemma magnitude_perm l l' : l ≡ₚ l' → magnitude l = magnitude l'.
Proof. intros Hperm. unfold magnitude. by apply sumZ_perm, fmap_Permutation. Qed.

Lemma fold_addFootballer_goals relevantPlayers footballers acc :
  Z.abs (goals acc) + magnitude (matchedGoals relevantPlayers <$> footballers)
  ≤ 2 ^ 53 →
  goals (fold_left (addFootballer relevantPlayers) footballers acc)
  = goals acc + sumZ (matchedGoals relevantPlayers <$> footballers).
Proof.
  revert acc. induction footballers as [|f fs IH]; intros acc Hbound.
  { unfold sumZ. simpl. lia. }
  rewrite fmap_cons in *. cbn [fold_left].
  pose proof (magnitude_nonneg (matchedGoals relevantPlayers <$> fs)) as Hrest.
  change (magnitude (?x :: ?l)) with (Z.abs x + magnitude l) in Hbound.
  change (sumZ (?x :: ?l)) with (x + sumZ l).
  assert (goals (addFootballer relevantPlayers acc f)
          = goals acc + matchedGoals relevantPlayers f) as Hstep.
  { clear IH. revert Hbound Hrest.
    generalize (magnitude (matchedGoals relevantPlayers <$> fs)).
    intros rest Hbound Hrest. unfold addFootballer, matchedGoals in *.
    destruct (findPlayer relevantPlayers f); cbn [goals]; [|lia].
    apply add_safe; unfold Number.safe; lia. }
  rewrite IH; rewrite Hstep; lia.
Qed.

Lemma fold_addFootballer_ownGoals relevantPlayers footballers acc :
  Z.abs (ownGoals acc)
  + magnitude (matchedOwnGoals relevantPlayers <$> footballers) ≤ 2 ^ 53 →
  ownGoals (fold_left (addFootballer relevantPlayers) footballers acc)
  = ownGoals acc + sumZ (matchedOwnGoals relevantPlayers <$> footballers).
Proof.
  revert acc. induction footballers as [|f fs IH]; intros acc Hbound.
  { unfold sumZ. simpl. lia. }
  rewrite fmap_cons in *. cbn [fold_left].
  pose proof (magnitude_nonneg (matchedOwnGoals relevantPlayers <$> fs))
    as Hrest.
  change (magnitude (?x :: ?l)) with (Z.abs x + magnitude l) in Hbound.
  change (sumZ (?x :: ?l)) with (x + sumZ l).
  assert (ownGoals (addFootballer relevantPlayers acc f)
          = ownGoals acc + matchedOwnGoals relevantPlayers f) as Hstep.
  { clear IH. revert Hbound Hrest.
    generalize (magnitude (matchedOwnGoals relevantPlayers <$> fs)).
    intros rest Hbound Hrest. unfold addFootballer, matchedOwnGoals in *.
    destruct (findPlayer relevantPlayers f); cbn [ownGoals]; [|lia].
    apply add_safe; unfold Number.safe; lia. }
  rewrite IH; rewrite Hstep; lia.
Qed.

Lemma forallb_perm {A} (f : A → bool) l l' :
  l ≡ₚ l' → forallb f l = forallb f l'.
Proof.
  induction 1 as [|x l l' _ IH|x y l|l1 l2 l3 _ IH1 _ IH2]; simpl;
    [done|by rewrite IH| |congruence].
  by destruct (f x), (f y).
Qed.

(** Beyond 2^53 the sums are rounded and depend on the order of the picks:
    2^53 + 1 + 1 stays at 2^53, 1 + 1 + 2^53 is 2^53 + 2. *)
Example sums_beyond_2p53_depend_on_order :
  Statistics.goals
    (computeStatistics MoreSamples.hugeFeed (Footballer.mk <$> [20; 30; 40]))
  = 2 ^ 53
  ∧ Statistics.goals
      (computeStatistics MoreSamples.hugeFeed (Footballer.mk <$> [30; 40; 20]))
    = 2 ^ 53 + 2.
Proof. split; vm_compute; reflexivity. Qed.

(** X15: all_scored does not depend on the order of the picks.  As long as
    the goals_scored of the matched players add up to at most 2^53 in
    magnitude, and so do their own_goals, the binary64 sums are exact: goals
    and own_goals are the sums over the picks, and goals, own_goals,
    net_goals and status do not depend on the order of the picks either. *)
Theorem statistics_order_independent relevantPlayers picks picks' :
  let s := computeStatistics relevantPlayers picks in
  let s' := computeStatistics relevantPlayers picks' in
  (picks ≡ₚ picks' → Statistics.all_scored s = Statistics.all_scored s')
  ∧ (magnitude (matchedGoals relevantPlayers <$> picks) ≤ 2 ^ 53 →
     magnitude (matchedOwnGoals relevantPlayers <$> picks) ≤ 2 ^ 53 →
     Statistics.goals s = sumZ (matchedGoals relevantPlayers <$> picks) ∧
     Statistics.own_goals s
     = sumZ (matchedOwnGoals relevantPlayers <$> picks) ∧
     (picks ≡ₚ picks' →
      Statistics.goals s = Statistics.goals s' ∧
      Statistics.own_goals s = Statistics.own_goals s' ∧
      Statistics.net_goals s = Statistics.net_goals s' ∧
      Statistics.status s = Statistics.status s')).
Proof.
  cbv zeta.
  assert (∀ l, l ≡ₚ picks →
            allScored (sumFootballers relevantPlayers l)
            = allScored (sumFootballers relevantPlayers picks)) as Hall.
  { intros l Hl. unfold sumFootballers.
    rewrite !fold_addFootballer_allScored.
    by rewrite (forallb_perm _ l picks Hl). }
  assert (∀ l, l ≡ₚ picks →
            magnitude (matchedGoals relevantPlayers <$> picks) ≤ 2 ^ 53 →
            goals (sumFootballers relevantPlayers l)
            = sumZ (matchedGoals relevantPlayers <$> picks)) as Hgoals.
  { intros l Hl Hbound. unfold sumFootballers.
    rewrite fold_addFootballer_goals.
    - simpl. by apply sumZ_perm, fmap_Permutation.
    - rewrite (magnitude_perm _ (matchedGoals relevantPlayers <$> picks))
        by by apply fmap_Permutation.
      simpl. lia. }
  assert (∀ l, l ≡ₚ picks →
            magnitude (matchedOwnGoals relevantPlayers <$> picks) ≤ 2 ^ 53 →
            ownGoals (sumFootballers relevantPlayers l)
            = sumZ (matchedOwnGoals relevantPlayers <$> picks)) as Hown.
  { intros l Hl Hbound. unfold sumFootballers.
    rewrite fold_addFootballer_ownGoals.
    - simpl. by apply sumZ_perm, fmap_Permutation.
    - rewrite (magnitude_perm _ (matchedOwnGoals relevantPlayers <$> picks))
        by by apply fmap_Permutation.
      simpl. lia. }
  unfold computeStatistics.
  cbn [Statistics.goals Statistics.own_goals Statistics.net_goals
       Statistics.all_scored Statistics.status].
  split.
  - intros Hperm. symmetry. by apply Hall.
  - intros Hg Ho. split_and!; [by apply Hgoals|by apply Hown|].
    intros Hperm. symmetry in Hperm.
    rewrite (Hgoals picks' Hperm Hg), (Hown picks' Hperm Ho),
      (Hgoals picks (reflexivity _) Hg), (Hown picks (reflexivity _) Ho),
      (Hall picks' Hperm).
    done.
Qed.

(** ** More on the grouping and on the batches *)

Lemma get_push_join poolsMap key e :
  NoDup poolsMap.*1 → key ∈ poolsMap.*1 →
  mjoin (get_push poolsMap key e).*2 ≡ₚ e :: mjoin poolsMap.*2.
Proof.
  induction poolsMap as [|[k v] m IH]; [by intros _ ?%not_elem_of_nil|].
  rewrite fmap_cons, NoDup_cons. cbn [fst]. intros [Hk Hnd] Hin.
  unfold get_push. rewrite !fmap_cons. fold (get_push m key e).
  cbn [fst snd mjoin list_join]. destruct (k =? key) eqn:Heq.
  - apply Z.eqb_eq in Heq as ->. cbn [snd].
    rewrite get_push_absent by done.
    rewrite <-app_assoc. simpl. by rewrite <-Permutation_middle.
  - apply Z.eqb_neq in Heq. apply elem_of_cons in Hin as [?|Hin]; [done|].
    cbn [snd]. rewrite IH by done. by rewrite <-Permutation_middle.
Qed.

Lemma groupEntry_join poolsMap entries e :
  Grouped poolsMap entries →
  mjoin (groupEntry poolsMap e).*2
  ≡ₚ mjoin poolsMap.*2 ++ filter (λ e, is_Some (Entry.pool e)) [e].
Proof.
  intros [Hkeys _ _]. unfold groupEntry. rewrite filter_cons, filter_nil.
  destruct (Entry.pool e) as [pool|] eqn:Hpool.
  - rewrite decide_True by eauto.
    destruct (has poolsMap (Pool.id pool)) eqn:Hhas.
    + apply has_true in Hhas. rewrite get_push_join by done.
      by rewrite <-Permutation_cons_append.
    + assert (Pool.id pool ∉ poolsMap.*1) as Hq.
      { rewrite <-has_true. by rewrite Hhas. }
      unfold set. rewrite Hhas. unfold get_push. rewrite fmap_app.
      fold (get_push poolsMap (Pool.id pool) e).
      rewrite get_push_absent by done. simpl. rewrite Z.eqb_refl.
      by rewrite fmap_app, join_app.
  - rewrite decide_False by (by intros [? ?]). by rewrite app_nil_r.
Qed.

(** X16: the grouping is a partition of the entries that have a pool: the
    keys are distinct, no group is empty, each group is the sub-list of the
    entries of its pool in input order, and the groups together hold every
    entry with a pool exactly once. *)
Theorem groupByPool_partition entries :
  NoDup (groupByPool entries).*1
  ∧ Forall (λ group, group.2 ≠ [] ∧ group.2 = filter (inPool group.1) entries)
      (groupByPool entries)
  ∧ mjoin (groupByPool entries).*2
    ≡ₚ filter (λ e, is_Some (Entry.pool e)) entries.
Proof.
  pose proof (groupByPool_Grouped entries) as [Hkeys Hvals _].
  split_and!; [done| |].
  - apply Forall_forall. intros [p g] Hin. simpl.
    by destruct (Hvals p g Hin).
  - unfold groupByPool.
    assert (∀ es m es0, Grouped m es0 →
              mjoin (fold_left groupEntry es m).*2
              ≡ₚ mjoin m.*2 ++ filter (λ e, is_Some (Entry.pool e)) es)
      as Hgen.
    { induction es as [|e es IH]; intros m es0 Hm; simpl.
      - by rewrite app_nil_r.
      - rewrite (IH _ (es0 ++ [e])) by by apply groupEntry_Grouped.
        rewrite (groupEntry_join _ es0) by done.
        rewrite <-app_assoc. f_equiv.
        by rewrite <-filter_app. }
    rewrite (Hgen entries [] []); [done|].
    split; [constructor|inversion 1|inversion 1].
Qed.

Section batch_facts.
Variable fails : nat → UpdateArgs → option Error.

Lemma rankPool_unreadable poolId poolEntries w :
  ownGoalsRule poolEntries = None →
  run (rankPool fails (poolId, poolEntries)) w
  = run (console_log (ErrUpdatingRankings poolId TypeError)) w.
Proof.
  intros Hu. unfold run, rankPool, try_catch, rankPoolEntries, mbind, Exec_bind.
  simpl. by rewrite firstOwnGoalsRule_eq, Hu.
Qed.

(** The loop stops at the first write that fails: the entries before it are
    ranked, the others keep their rows. *)
Lemma updateRanksFrom_partial i poolEntries w j e error :
  NoDup (Entry.id <$> poolEntries) →
  (∀ e, e ∈ poolEntries → is_Some (entry_table w !! Entry.id e)) →
  poolEntries !! j = Some e →
  (∀ m e', (m < j)%nat → poolEntries !! m = Some e' →
     fails (length (calls w) + m)%nat (rankArgs (i + m) e') = None) →
  fails (length (calls w) + j)%nat (rankArgs (i + j) e) = Some error →
  let w' := run (updateRanksFrom fails i poolEntries) w in
  (updateRanksFrom fails i poolEntries w).1 = Throw error
  ∧ (∀ m e', (m < j)%nat → poolEntries !! m = Some e' →
       storedRank w' e' = Some (Z.of_nat (i + m) + 1))
  ∧ (∀ m e', (j ≤ m)%nat → poolEntries !! m = Some e' →
       entry_table w' !! Entry.id e' = entry_table w !! Entry.id e')
  ∧ length (calls w') = (length (calls w) + S j)%nat.
Proof.
  revert i w j.
  induction poolEntries as [|x rest IH]; intros i w j Hnd Hex Hj Hok Hfail;
    [done|].
  rewrite fmap_cons in Hnd. apply NoDup_cons in Hnd as [Hx Hnd].
  cbv zeta. simpl. unfold run, mbind, Exec_bind.
  destruct (Hex x) as [x0 Hx0]; [left|].
  destruct j as [|j]; simpl in Hj.
  - simplify_eq. rewrite !Nat.add_0_r in Hfail.
    unfold prisma_entry_update at 1 2 3 4. cbn [where_id rankArgs].
    rewrite Hx0. fold (rankArgs i e). rewrite Hfail. simpl.
    split_and!; [done|intros; lia|done|by rewrite length_app].
  - pose proof (Hok 0%nat x ltac:(lia) eq_refl) as Hhead.
    rewrite !Nat.add_0_r in Hhead.
    rewrite (prisma_entry_update_success fails (rankArgs i x) w x0 Hx0 Hhead).
    set (w1 := {| entry_table := _; calls := _; console := _ |}).
    destruct (IH (S i) w1 j Hnd) as (Hthrow & Hbefore & Hafter & Hlen).
    + intros e' He'. simpl.
      destruct (decide (Entry.id x = Entry.id e')) as [->|Hne].
      * rewrite lookup_insert_eq. eauto.
      * rewrite lookup_insert_ne by done. apply Hex. by right.
    + done.
    + intros m e' Hm He'. simpl. rewrite length_app. simpl.
      replace (length (calls w) + 1 + m)%nat
        with (length (calls w) + S m)%nat by lia.
      replace (S (i + m))%nat with (i + S m)%nat by lia.
      apply Hok; [lia|done].
    + simpl. rewrite length_app. simpl.
      replace (length (calls w) + 1 + j)%nat
        with (length (calls w) + S j)%nat by lia.
      by replace (S (i + j))%nat with (i + S j)%nat by lia.
    + unfold run in *. split_and!; [done| | |].
      * intros [|m] e' Hm He'; simpl in He'.
        -- simplify_eq. unfold storedRank.
           destruct (updateRanksFrom_footprint fails (S i) rest w1)
             as [_ _ Hu _].
           unfold run in Hu. rewrite Hu.
           ++ simpl. rewrite lookup_insert_eq. simpl. by rewrite Nat.add_0_r.
           ++ intros a [_ (e'' & He'' & Heq)] Heq'. apply Hx.
              rewrite <-Heq', Heq. by apply list_elem_of_fmap_2.
        -- rewrite (Hbefore m e' ltac:(lia) He'). do 3 f_equal. lia.
      * intros [|m] e' Hm He'; [lia|]. simpl in He'.
        rewrite (Hafter m e' ltac:(lia) He'). simpl.
        rewrite lookup_insert_ne; [done|]. intros Heq. apply Hx.
        rewrite Heq. apply list_elem_of_fmap_2.
        by eapply list_elem_of_lookup_2.
      * rewrite Hlen. simpl. rewrite length_app. simpl. lia.
Qed.
End batch_facts.

(** X17: a batch is not undone when one of its writes fails.  If the write
    for position [j] of the sorted array is the first to fail, the entries
    at the positions before [j] hold their new ranks, the entries from [j]
    on keep their rows, [j + 1] updates were issued and the error is printed
    for the pool. *)
Theorem rank_batch_no_rollback
    fails poolId poolEntries useNetGoals w j e error :
  NoDup (Entry.id <$> poolEntries) →
  ownGoalsRule poolEntries = Some useNetGoals →
  (∀ e, e ∈ poolEntries → is_Some (entry_table w !! Entry.id e)) →
  let sorted := sort (compareFn useNetGoals) poolEntries in
  let w' := run (rankPool fails (poolId, poolEntries)) w in
  sorted !! j = Some e →
  (∀ m e', (m < j)%nat → sorted !! m = Some e' →
     fails (length (calls w) + m)%nat (rankArgs m e') = None) →
  fails (length (calls w) + j)%nat (rankArgs j e) = Some error →
  (∀ m e', (m < j)%nat → sorted !! m = Some e' →
     storedRank w' e' = Some (Z.of_nat m + 1))
  ∧ (∀ m e', (j ≤ m)%nat → sorted !! m = Some e' →
       entry_table w' !! Entry.id e' = entry_table w !! Entry.id e')
  ∧ length (newCalls w w') = S j
  ∧ console w' = console w ++ [ErrUpdatingRankings poolId error].
Proof.
  intros Hnd Hu Hex. cbv zeta. intros Hj Hok Hfail.
  set (sorted := sort (compareFn useNetGoals) poolEntries) in *.
  destruct (updateRanksFrom_partial fails 0 sorted w j e error)
    as (Hthrow & Hbefore & Hafter & Hlen); [|intros e'|done..|].
  { unfold sorted. by rewrite (sort_perm (compareFn useNetGoals)). }
  { unfold sorted. rewrite (sort_perm (compareFn useNetGoals)). apply Hex. }
  pose proof (updateRanksFrom_console fails 0 sorted w) as Hcon.
  destruct (updateRanksFrom_footprint fails 0 sorted w) as [(new & Hc & _) _ _ _].
  assert (run (rankPool fails (poolId, poolEntries)) w
          = run (console_log (ErrUpdatingRankings poolId error))
              (run (updateRanksFrom fails 0 sorted) w)) as ->.
  { unfold run, rankPool, try_catch, rankPoolEntries, mbind, Exec_bind.
    simpl. rewrite firstOwnGoalsRule_eq, Hu. fold sorted.
    by destruct (updateRanksFrom fails 0 sorted w) as [[[]|?] w1];
      simplify_eq/=. }
  cbn [run console_log snd entry_table console].
  split_and!; [done|done| |by rewrite Hcon].
  unfold newCalls. cbn [calls]. rewrite Hc in Hlen |- *.
  rewrite drop_app_length. rewrite length_app in Hlen. lia.
Qed.

(** X18: a pool whose rule cannot be read (no rules with the pool of its
    first entry) gets no rank update at all in the ranking pass: its rows
    are untouched, no update is addressed to them, and a [TypeError] is
    printed for the pool. *)
Theorem ranking_unreadable_rule fails entries w poolId :
  NoDup (Entry.id <$> entries) →
  let poolEntries := filter (inPool poolId) entries in
  let w' := run (updateEntryRankings fails entries) w in
  poolEntries ≠ [] →
  ownGoalsRule poolEntries = None →
  (∀ e, e ∈ poolEntries →
     entry_table w' !! Entry.id e = entry_table w !! Entry.id e)
  ∧ Forall (λ c, ∀ e, e ∈ poolEntries → where_id c.1 ≠ Entry.id e)
      (newCalls w w')
  ∧ ∃ before after,
      console w'
      = console w ++ before ++ ErrUpdatingRankings poolId TypeError :: after.
Proof.
  intros Hnd. cbv zeta. intros Hne Hu.
  set (poolEntries := filter (inPool poolId) entries) in *.
  pose proof (groupByPool_lookup entries poolId Hne) as Hin.
  pose proof (Grouped_NoDup_ids _ _ (groupByPool_Grouped entries) Hnd) as Hids.
  rewrite updateEntryRankings_unfold.
  apply list_elem_of_split in Hin as (gs1 & gs2 & Hsplit).
  fold poolEntries in Hsplit. rewrite Hsplit in Hids |- *.
  rewrite rankPools_split, rankPool_unreadable by done.
  rewrite fmap_app, fmap_cons, join_app in Hids. simpl in Hids.
  rewrite !fmap_app in Hids.
  apply NoDup_app in Hids as (_ & Hdisj1 & Hids).
  apply NoDup_app in Hids as (_ & Hdisj2 & _).
  set (w0 := run (for_of gs1 (rankPool fails)) w).
  set (w1 := run (console_log (ErrUpdatingRankings poolId TypeError)) w0).
  destruct (rankPools_footprint fails gs1 w)
    as [(n1 & Hc1 & Hd1) (l1 & Hl1) Hu1 _].
  destruct (rankPools_footprint fails gs2 w1)
    as [(n2 & Hc2 & Hd2) (l2 & Hl2) Hu2 _].
  fold w0 in Hc1, Hl1, Hu1.
  assert (∀ a e, rankCall (mjoin gs1.*2) a → e ∈ poolEntries →
            where_id a ≠ Entry.id e) as Hfresh1.
  { intros a e [_ (e' & He' & Heq)] He Heq'.
    apply (Hdisj1 (Entry.id e')); [by apply list_elem_of_fmap_2|].
    rewrite <-Heq, Heq'. apply elem_of_app. left.
    by apply list_elem_of_fmap_2. }
  assert (∀ a e, rankCall (mjoin gs2.*2) a → e ∈ poolEntries →
            where_id a ≠ Entry.id e) as Hfresh2.
  { intros a e [_ (e' & He' & Heq)] He Heq'.
    apply (Hdisj2 (Entry.id e)); [by apply list_elem_of_fmap_2|].
    rewrite <-Heq', Heq. by apply list_elem_of_fmap_2. }
  split_and!.
  - intros e He. rewrite Hu2 by (intros a Ha; by apply Hfresh2).
    change (entry_table w1) with (entry_table w0).
    apply Hu1. intros a Ha. by apply Hfresh1.
  - rewrite (newCalls_app w _ (n1 ++ n2)).
    + apply Forall_app. split.
      * eapply Forall_impl; [exact Hd1|]. intros c Hc e He. by apply Hfresh1.
      * eapply Forall_impl; [exact Hd2|]. intros c Hc e He. by apply Hfresh2.
    + rewrite Hc2. change (calls w1) with (calls w0).
      by rewrite Hc1, app_assoc.
  - exists l1, l2. rewrite Hl2.
    change (console w1)
      with (console w0 ++ [ErrUpdatingRankings poolId TypeError]).
    rewrite Hl1. by rewrite <-!app_assoc.
Qed.


(** ** The further properties at the sample data *)

Lemma Sample_store_wf : storeWf Sample.store.
Proof.
  apply (bool_decide_unpack
           (map_Forall (λ k e, Entry.id e = k) (entry_table Sample.store))).
  vm_compute. exact I.
Qed.

(** The three reads failing in turn, on the sample store. *)
Lemma runGame_read_failure_aborts_witness :
  let w := Sample.store in
  let run1 := run (runGame Sample.noFailure MoreSamples.footballersFail) w in
  let run2 := run (runGame Sample.noFailure MoreSamples.feedFails) w in
  let run3 := run (runGame Sample.noFailure MoreSamples.entriesFail) w in
  (entry_table run1 = entry_table w ∧ calls run1 = calls w ∧
   console run1 = console w ++ [LogRunningGame; ErrPrismaInitialize])
  ∧ (entry_table run2 = entry_table w ∧ calls run2 = calls w ∧
     console run2 = console w ++ [LogRunningGame;
                                  ErrFetchingEPLPlayerData HttpError;
                                  ErrUnexpected HttpError])
  ∧ (entry_table run3 = entry_table w ∧ calls run3 = calls w ∧
     console run3 = console w ++ [LogRunningGame; ErrKnownPrisma]).
Proof.
  cbv zeta.
  destruct (runGame_read_failure_aborts Sample.noFailure
              MoreSamples.footballersFail Sample.store) as (H1 & _ & _).
  destruct (runGame_read_failure_aborts Sample.noFailure
              MoreSamples.feedFails Sample.store) as (_ & H2 & _).
  destruct (runGame_read_failure_aborts Sample.noFailure
              MoreSamples.entriesFail Sample.store) as (_ & _ & H3).
  split; [|split].
  - apply (H1 PrismaClientInitializationError). reflexivity.
  - apply (H2 MoreSamples.knownFootballers HttpError); reflexivity.
  - apply (H3 MoreSamples.knownFootballers Sample.players
              PrismaClientKnownRequestError); reflexivity.
Defined.

(** A run on the empty store. *)
Lemma runGame_no_entries_witness :
  let w := MoreSamples.emptyStore in
  let w' := run (runGame Sample.noFailure Sample.reads) w in
  entry_table w = ∅
  ∧ entry_table w' = ∅ ∧ calls w' = calls w
  ∧ console w' = console w ++ [LogRunningGame; LogNoEntriesFound].
Proof.
  cbv zeta. split; [reflexivity|].
  apply (runGame_no_entries Sample.noFailure MoreSamples.knownFootballers
           Sample.players MoreSamples.emptyStore).
  reflexivity.
Defined.

(** Player 50 is in the feed but is no known footballer. *)
Lemma relevantPlayers_filter_witness :
  let relevantPlayers :=
    relevantPlayersOf MoreSamples.knownFootballers Sample.players in
  let picks := [Footballer.mk 10; Footballer.mk 20] in
  (Footballer.id (Footballer.mk 50)
     ∉ Footballer.id <$> MoreSamples.knownFootballers)
  ∧ findPlayer Sample.players (Footballer.mk 50)
    = Some (Player.mk 50 3 0 1%float)
  ∧ findPlayer relevantPlayers (Footballer.mk 50) = None
  ∧ computeStatistics relevantPlayers picks
    = computeStatistics Sample.players picks.
Proof.
  cbv zeta.
  destruct (relevantPlayers_filter MoreSamples.knownFootballers Sample.players
              [Footballer.mk 10; Footballer.mk 20]) as [Hunknown Hknown].
  assert (Footballer.id (Footballer.mk 50)
            ∉ Footballer.id <$> MoreSamples.knownFootballers) as Hnot.
  { apply (bool_decide_unpack _). vm_compute. exact I. }
  split_and!; [done|reflexivity|by apply Hunknown|].
  apply Hknown. intros f Hf.
  apply elem_of_cons in Hf as [->|Hf]; [|apply list_elem_of_singleton in Hf as ->].
  - apply (bool_decide_unpack _). vm_compute. exact I.
  - apply (bool_decide_unpack _). vm_compute. exact I.
Defined.

(** The calls of a run on the sample store. *)
Lemma runGame_call_order_witness :
  let w := Sample.store in
  let entries := loadedEntries w in
  let relevantPlayers :=
    relevantPlayersOf MoreSamples.knownFootballers Sample.players in
  let w' := run (runGame Sample.noFailure Sample.reads) w in
  length entries = 5%nat
  ∧ ∃ outcomes ranking,
      length outcomes = length entries ∧
      newCalls w w'
      = zip (statisticsArgs relevantPlayers <$> entries) outcomes ++ ranking ∧
      Forall (λ c, rankCall entries c.1) ranking.
Proof.
  cbv zeta. split; [vm_compute; reflexivity|].
  apply (runGame_call_order Sample.noFailure MoreSamples.knownFootballers
           Sample.players Sample.store).
  intros Hnil. apply (f_equal length) in Hnil. vm_compute in Hnil. discriminate.
Defined.

(** Entry 1 after a run on the sample store. *)
Lemma runGame_statistics_fresh_witness :
  let relevantPlayers :=
    relevantPlayersOf MoreSamples.knownFootballers Sample.players in
  let w' := run (runGame Sample.noFailure Sample.reads) Sample.store in
  storeWf Sample.store
  ∧ entry_table Sample.store !! 1 = Some Sample.e1
  ∧ ∃ e', entry_table w' !! 1 = Some e' ∧
          sameIdentity Sample.e1 e' ∧
          applyData (StatisticsData
                       (computeStatistics relevantPlayers
                          (Entry.footballers Sample.e1))) e'
          = e'.
Proof.
  cbv zeta. split; [apply Sample_store_wf|]. split; [vm_compute; reflexivity|].
  apply (runGame_statistics_fresh Sample.noFailure MoreSamples.knownFootballers
           Sample.players Sample.store 1 Sample.e1 Sample_store_wf).
  - intros n e _. reflexivity.
  - vm_compute. reflexivity.
Defined.

(** Pool 7 after one run on the sample store: ranked by the goals 7, 5, 0
    that entries 5, 2 and 1 held when loaded. *)
Lemma runGame_ranks_follow_loaded_values_witness :
  let w' := run (runGame Sample.noFailure Sample.reads) Sample.store in
  let sorted := [Sample.e5; Sample.e2; Sample.e1] in
  sort (compareFn false) (filter (inPool 7) (loadedEntries Sample.store))
  = sorted
  ∧ Forall (λ e, entry_table Sample.store !! Entry.id e = Some e) sorted
  ∧ storedRank w' <$> sorted = [Some 1; Some 2; Some 3].
Proof.
  cbv zeta.
  assert (sort (compareFn false)
            (filter (inPool 7) (loadedEntries Sample.store))
          = [Sample.e5; Sample.e2; Sample.e1]) as Hsort
    by (vm_compute; reflexivity).
  destruct (runGame_ranks_follow_loaded_values Sample.noFailure
              MoreSamples.knownFootballers Sample.players Sample.store 7 false
              Sample_store_wf) as (_ & _ & Hrows & Hranks).
  - intros Hnil. apply (f_equal length) in Hnil. vm_compute in Hnil.
    discriminate.
  - vm_compute. reflexivity.
  - intros n j e _. reflexivity.
  - rewrite Hsort in Hrows, Hranks. split_and!; [done|done|].
    etrans; [exact Hranks|]. vm_compute. reflexivity.
Defined.

(** Two runs on the sample store: entries 1 and 2 of pool 7 end with the
    ranks 1 and 2, in the order of the goals 9 and 2 the store then holds. *)
Lemma second_run_ranks_agree_witness :
  let w1 := run (runGame Sample.noFailure Sample.reads) Sample.store in
  let w2 := run (runGame Sample.noFailure Sample.reads) w1 in
  storeWf Sample.store
  ∧ neverFails Sample.noFailure
  ∧ ownGoalsRule (filter (inPool 7) (loadedEntries w1)) = Some false
  ∧ (λ k, Entry.goals <$> entry_table w2 !! k) <$> [1; 2] = [Some 9; Some 2]
  ∧ (λ k, Entry.rank <$> entry_table w2 !! k) <$> [1; 2]
    = [Some (Some 1); Some (Some 2)]
  ∧ ∃ a b ra rb,
      entry_table w2 !! 1 = Some a ∧ entry_table w2 !! 2 = Some b ∧
      Entry.rank a = Some ra ∧ Entry.rank b = Some rb ∧
      (1 ≠ 2 → ra ≠ rb) ∧
      (ra < rb → rankingKey false b ≤ rankingKey false a).
Proof.
  cbv zeta.
  set (w1 := run (runGame Sample.noFailure Sample.reads) Sample.store).
  set (w2 := run (runGame Sample.noFailure Sample.reads) w1).
  assert (neverFails Sample.noFailure) as Hnever by (intros n a; reflexivity).
  assert (ownGoalsRule (filter (inPool 7) (loadedEntries w1)) = Some false)
    as Hrule by (vm_compute; reflexivity).
  assert (∃ a, entry_table w2 !! 1 = Some a ∧ inPool 7 a) as (a & Ha & Hpa).
  { vm_compute. eexists. split; reflexivity. }
  assert (∃ b, entry_table w2 !! 2 = Some b ∧ inPool 7 b) as (b & Hb & Hpb).
  { vm_compute. eexists. split; reflexivity. }
  destruct (second_run_ranks_agree Sample.noFailure Sample.noFailure
              MoreSamples.knownFootballers Sample.players Sample.store 7 false
              Sample_store_wf Hnever Hnever Hrule 1 2 a b Ha Hb Hpa Hpb)
    as (ra & rb & Hra & Hrb & Hne & Hle).
  split_and!; [apply Sample_store_wf|done|done| | |].
  - vm_compute. reflexivity.
  - vm_compute. reflexivity.
  - by exists a, b, ra, rb.
Defined.

(** Eight fixtures, six of them not finished: the first five are taken and
    the sixth is left out. *)
Lemma upcoming_first_five_witness :
  let taken := (λ code, MoreSamples.fixture code (Some false))
               <$> [2; 4; 5; 6; 7] in
  Snapshot.upcoming MoreSamples.fixtures = taken
  ∧ Forall (λ f, Snapshot.finished f = Some false) taken
  ∧ filter (λ f, Snapshot.finished f = Some false) MoreSamples.fixtures
    = taken ++ [MoreSamples.fixture 8 (Some false)]
  ∧ length taken = 5%nat.
Proof.
  cbv zeta.
  destruct (upcoming_first_five MoreSamples.fixtures)
    as (_ & Hall & _ & rest & Hrest & Hfive).
  assert (Snapshot.upcoming MoreSamples.fixtures
          = (λ code, MoreSamples.fixture code (Some false))
              <$> [2; 4; 5; 6; 7]) as Heq
    by (vm_compute; reflexivity).
  rewrite Heq in Hall, Hrest, Hfive.
  assert (rest = [MoreSamples.fixture 8 (Some false)]) as ->.
  { vm_compute in Hrest. by simplify_eq. }
  split_and!; [done|done|done|]. apply Hfive. discriminate.
Defined.

(** A successful snapshot after one stored snapshot. *)
Lemma updateGameState_success_witness :
  let env := MoreSamples.env (Normal (Some MoreSamples.info))
               (Normal MoreSamples.fixtures) None in
  Snapshot.run (Snapshot.updateGameState env) MoreSamples.snapshots
  = {| Snapshot.gameState_table :=
         [ Snapshot.mkGameState 1000 10000000 6 [];
           Snapshot.mkGameState 2000 11000000 7
             (Snapshot.upcoming MoreSamples.fixtures) ];
       Snapshot.requests := [Snapshot.BootstrapStatic; Snapshot.Fixtures];
       Snapshot.console := [Snapshot.GameStateUpdated] |}.
Proof.
  cbv zeta.
  apply (updateGameState_success
           (MoreSamples.env (Normal (Some MoreSamples.info))
              (Normal MoreSamples.fixtures) None)
           MoreSamples.snapshots MoreSamples.info MoreSamples.fixtures);
    reflexivity.
Defined.

(** The four ways the snapshot job fails, after one stored snapshot. *)
Lemma updateGameState_failure_witness :
  let w := MoreSamples.snapshots in
  let after env := Snapshot.run (Snapshot.updateGameState env) w in
  let env1 := MoreSamples.env (Throw HttpError) (Normal MoreSamples.fixtures)
                None in
  let env2 := MoreSamples.env (Normal (Some MoreSamples.info))
                (Throw HttpError) None in
  let env3 := MoreSamples.env (Normal None) (Normal MoreSamples.fixtures)
                None in
  let env4 := MoreSamples.env (Normal (Some MoreSamples.info))
                (Normal MoreSamples.fixtures)
                (Some PrismaClientKnownRequestError) in
  (Snapshot.gameState_table (after env1) = Snapshot.gameState_table w ∧
   Snapshot.requests (after env1) = [Snapshot.BootstrapStatic] ∧
   Snapshot.console (after env1)
   = [Snapshot.ErrFetchingFPLData HttpError;
      Snapshot.ErrInUpdateGameState HttpError])
  ∧ (Snapshot.gameState_table (after env2) = Snapshot.gameState_table w ∧
     Snapshot.requests (after env2)
     = [Snapshot.BootstrapStatic; Snapshot.Fixtures] ∧
     Snapshot.console (after env2)
     = [Snapshot.ErrFetchingFPLData HttpError;
        Snapshot.ErrInUpdateGameState HttpError])
  ∧ (Snapshot.gameState_table (after env3) = Snapshot.gameState_table w ∧
     Snapshot.console (after env3)
     = [Snapshot.ErrInUpdateGameState TypeError])
  ∧ (Snapshot.gameState_table (after env4) = Snapshot.gameState_table w ∧
     Snapshot.console (after env4)
     = [Snapshot.ErrSavingGameState PrismaClientKnownRequestError;
        Snapshot.ErrInUpdateGameState PrismaClientKnownRequestError]).
Proof.
  cbv zeta.
  destruct (updateGameState_failure
              (MoreSamples.env (Throw HttpError) (Normal MoreSamples.fixtures)
                 None) MoreSamples.snapshots) as (H1 & _).
  destruct (updateGameState_failure
              (MoreSamples.env (Normal (Some MoreSamples.info))
                 (Throw HttpError) None) MoreSamples.snapshots)
    as (_ & H2 & _).
  destruct (updateGameState_failure
              (MoreSamples.env (Normal None) (Normal MoreSamples.fixtures)
                 None) MoreSamples.snapshots) as (_ & _ & H3 & _).
  destruct (updateGameState_failure
              (MoreSamples.env (Normal (Some MoreSamples.info))
                 (Normal MoreSamples.fixtures)
                 (Some PrismaClientKnownRequestError)) MoreSamples.snapshots)
    as (_ & _ & _ & H4).
  split; [|split; [|split]].
  - apply (H1 HttpError). reflexivity.
  - apply (H2 (Some MoreSamples.info) HttpError); reflexivity.
  - apply (H3 MoreSamples.fixtures); reflexivity.
  - apply (H4 MoreSamples.info MoreSamples.fixtures
              PrismaClientKnownRequestError); reflexivity.
Defined.

(** The picks of entry 3 in both orders. *)
Lemma statistics_order_independent_witness :
  let picks := [Footballer.mk 10; Footballer.mk 20] in
  let picks' := [Footballer.mk 20; Footballer.mk 10] in
  let s := computeStatistics Sample.players picks in
  let s' := computeStatistics Sample.players picks' in
  picks ≡ₚ picks'
  ∧ magnitude (matchedGoals Sample.players <$> picks) = 11
  ∧ magnitude (matchedOwnGoals Sample.players <$> picks) = 1
  ∧ Statistics.goals s = 11 ∧ Statistics.own_goals s = 1
  ∧ Statistics.all_scored s = Statistics.all_scored s'
  ∧ Statistics.goals s = Statistics.goals s'
  ∧ Statistics.own_goals s = Statistics.own_goals s'
  ∧ Statistics.net_goals s = Statistics.net_goals s'
  ∧ Statistics.status s = Statistics.status s'.
Proof.
  cbv zeta.
  assert ([Footballer.mk 10; Footballer.mk 20]
          ≡ₚ [Footballer.mk 20; Footballer.mk 10]) as Hperm
    by apply Permutation_swap.
  destruct (statistics_order_independent Sample.players
              [Footballer.mk 10; Footballer.mk 20]
              [Footballer.mk 20; Footballer.mk 10]) as (Hall & Hsums).
  destruct Hsums as (Hg & Ho & Hsame); [by vm_compute..|].
  split; [done|]. split; [reflexivity|]. split; [reflexivity|].
  split; [by rewrite Hg|]. split; [by rewrite Ho|].
  split; [by apply Hall|]. by apply Hsame.
Defined.

(** The batch of pool 7 when every write to entry 1 fails: entries 5 and 2
    are ranked 1 and 2, entry 1 keeps its row. *)
Lemma rank_batch_no_rollback_witness :
  let w := Sample.store in
  let poolEntries := [Sample.e1; Sample.e2; Sample.e5] in
  let w' := run (rankPool Sample.entry1Fails (7, poolEntries)) w in
  sort (compareFn false) poolEntries = [Sample.e5; Sample.e2; Sample.e1]
  ∧ storedRank w' Sample.e5 = Some 1
  ∧ storedRank w' Sample.e2 = Some 2
  ∧ entry_table w' !! 1 = entry_table w !! 1
  ∧ length (newCalls w w') = 3%nat
  ∧ console w'
    = console w ++ [ErrUpdatingRankings 7 PrismaClientUnknownRequestError].
Proof.
  cbv zeta.
  destruct (rank_batch_no_rollback Sample.entry1Fails 7
              [Sample.e1; Sample.e2; Sample.e5] false Sample.store
              2%nat Sample.e1 PrismaClientUnknownRequestError)
    as (Hbefore & Hafter & Hlen & Hcon).
  - apply (bool_decide_unpack _). vm_compute. exact I.
  - reflexivity.
  - intros e He. repeat (apply elem_of_cons in He as [->|He]);
      [vm_compute; eauto..|by apply not_elem_of_nil in He].
  - vm_compute. reflexivity.
  - intros [|[|m]] e' Hm He'; [| |lia].
    + vm_compute in He'. injection He' as <-. reflexivity.
    + vm_compute in He'. injection He' as <-. reflexivity.
  - reflexivity.
  - split_and!; [vm_compute; reflexivity| | | |done|done].
    + apply (Hbefore 0%nat Sample.e5); [lia|vm_compute; reflexivity].
    + apply (Hbefore 1%nat Sample.e2); [lia|vm_compute; reflexivity].
    + apply (Hafter 2%nat Sample.e1); [lia|vm_compute; reflexivity].
Defined.

(** Pool 9 has no rules: entry 7 keeps its row while pool 7 is ranked. *)
Lemma ranking_unreadable_rule_witness :
  let w := MoreSamples.orphanStore in
  let w' := run (updateEntryRankings Sample.noFailure MoreSamples.withOrphan)
              w in
  NoDup (Entry.id <$> MoreSamples.withOrphan)
  ∧ filter (inPool 9) MoreSamples.withOrphan = [MoreSamples.e7]
  ∧ ownGoalsRule [MoreSamples.e7] = None
  ∧ entry_table w' !! 7 = entry_table w !! 7
  ∧ Forall (λ c, where_id c.1 ≠ 7) (newCalls w w')
  ∧ console w' = [ErrUpdatingRankings 9 TypeError]
  ∧ storedRank w' <$> [Sample.e1; Sample.e2] = [Some 2; Some 1].
Proof.
  cbv zeta.
  assert (NoDup (Entry.id <$> MoreSamples.withOrphan)) as Hnd.
  { apply (bool_decide_unpack _). vm_compute. exact I. }
  assert (filter (inPool 9) MoreSamples.withOrphan = [MoreSamples.e7])
    as Hfilter by (vm_compute; reflexivity).
  destruct (ranking_unreadable_rule Sample.noFailure MoreSamples.withOrphan
              MoreSamples.orphanStore 9 Hnd) as (Hrows & Hcalls & _).
  - rewrite Hfilter. discriminate.
  - rewrite Hfilter. reflexivity.
  - rewrite Hfilter in Hrows, Hcalls.
    split_and!; [done|done|reflexivity| | |vm_compute; reflexivity
                |vm_compute; reflexivity].
    + apply (Hrows MoreSamples.e7). left.
    + eapply Forall_impl; [exact Hcalls|]. intros c Hc.
      apply (Hc MoreSamples.e7). left.
Defined.

